(** * Notification platform: the edge gateway

    A shallow embedding of the API gateway of the notification platform
    (rate limiter over Redis, bearer-token gate, reverse proxy, response
    envelope) and the properties its specification states about it.

    Layout: the definitions come first, one module per source file; the
    theorems follow, grouped by component. *)

From Stdlib Require Import ZArith Lia Bool Ascii String.
From stdpp Require Import base option list relations gmap strings.

Open Scope string_scope.
Open Scope Z_scope.

(** ** JavaScript string helpers

    Header values reach Node as Latin-1 text, so a [string] of 8-bit
    characters carries them exactly. *)

Module Js.

(** [s.startsWith(p)] *)
Definition startsWith (s p : string) : bool := String.prefix p s.

(** [s.includes(p)] *)
Fixpoint includes (s p : string) : bool :=
  String.prefix p s ||
  match s with
  | EmptyString => false
  | String _ rest => includes rest p
  end.

(** [s.split('?')[0]]: everything before the first question mark. *)
Fixpoint split_query_head (s : string) : string :=
  match s with
  | EmptyString => EmptyString
  | String c rest =>
      if Ascii.eqb c "?"%char then EmptyString
      else String c (split_query_head rest)
  end.

(** White space and line terminators of ECMAScript that fit in 8 bits:
    TAB, LF, VT, FF, CR, SP and NBSP. *)
Definition is_white (c : ascii) : bool :=
  let n := Ascii.nat_of_ascii c in
  ((9 <=? n)%nat && (n <=? 13)%nat) || (n =? 32)%nat || (n =? 160)%nat.

Fixpoint trimStart (s : string) : string :=
  match s with
  | EmptyString => EmptyString
  | String c rest => if is_white c then trimStart rest else s
  end.

Fixpoint trimEnd (s : string) : string :=
  match s with
  | EmptyString => EmptyString
  | String c rest =>
      match trimEnd rest with
      | EmptyString => if is_white c then EmptyString else String c EmptyString
      | t => String c t
      end
  end.

(** [s.trim()] *)
Definition trim (s : string) : string := trimEnd (trimStart s).

(** [s.substring(n)] for [n] within range or beyond it. *)
Fixpoint substring_from (n : nat) (s : string) : string :=
  match n, s with
  | O, _ => s
  | S n', String _ rest => substring_from n' rest
  | S _, EmptyString => EmptyString
  end.

(** Truthiness of a string: only the empty string is falsy. *)
Definition truthy_str (s : string) : bool :=
  match s with EmptyString => false | _ => true end.

(** [s.trim().length > 0] *)
Definition non_blank (s : string) : bool := truthy_str (trim s).

(** [s.toLowerCase()] on the ASCII letters, which is all a header name has. *)
Definition lower (c : ascii) : ascii :=
  let n := Ascii.nat_of_ascii c in
  if (65 <=? n)%nat && (n <=? 90)%nat then Ascii.ascii_of_nat (n + 32) else c.

Fixpoint toLowerCase (s : string) : string :=
  match s with
  | EmptyString => EmptyString
  | String c rest => String (lower c) (toLowerCase rest)
  end.

(** *** Values

    What a handler returns and what [res.json] is given. The code below only
    asks a number whether it is truthy, so integers and NaN stand for the
    doubles. An object lists its own properties in insertion order. *)

Inductive number := NaN | Finite (z : Z).

#[warnings="-register-all"]
Inductive value :=
| VUndefined
| VNull
| VBool (b : bool)
| VNum (n : number)
| VStr (s : string)
| VArr (items : list value)
| VObj (props : list (string * value)).

Definition truthy (v : value) : bool :=
  match v with
  | VUndefined | VNull => false
  | VBool b => b
  | VNum NaN => false
  | VNum (Finite z) => negb (z =? 0)
  | VStr s => truthy_str s
  | VArr _ | VObj _ => true
  end.

Fixpoint own (props : list (string * value)) (k : string) : value :=
  match props with
  | [] => VUndefined
  | (k', v) :: rest => if String.eqb k' k then v else own rest k
  end.

(** [v?.k] for a property name no prototype defines: an own property of an
    object, [undefined] on anything else. *)
Definition get (v : value) (k : string) : value :=
  match v with
  | VObj props => own props k
  | _ => VUndefined
  end.

Definition is_undefined (v : value) : bool :=
  match v with VUndefined => true | _ => false end.

(** [a ?? b] *)
Definition nullish_or (a b : value) : value :=
  match a with
  | VUndefined | VNull => b
  | _ => a
  end.

(** [a || b] *)
Definition or_else (a b : value) : value := if truthy a then a else b.

End Js.

(** ** The Redis server as the gateway sees it

    The throttler storage talks to one Redis server through four commands:
    TTL, INCR, EXPIRE and SET .. EX. The server runs one command at a time;
    a key with a time to live disappears when the server clock reaches its
    deadline. Counters are kept as integers (the decimal strings Redis
    stores for INCR), time is counted in seconds. *)

Module Redis.

Record entry := Entry { value : Z; expire_at : option Z }.

Record redis := Mk { db : gmap string entry; now : Z }.

Definition expired (t : Z) (e : entry) : bool :=
  match expire_at e with
  | Some d => d <=? t
  | None => false
  end.

(** The entry under [k] as far as a command can see it. *)
Definition live (r : redis) (k : string) : option entry :=
  match db r !! k with
  | Some e => if expired (now r) e then None else Some e
  | None => None
  end.

(** The clock moves on by [d] seconds. *)
Definition advance (d : nat) (r : redis) : redis :=
  Mk (db r) (now r + Z.of_nat d).

(** TTL key: -2 without the key, -1 without a deadline. *)
Definition TTL (k : string) (r : redis) : Z :=
  match live r k with
  | None => -2
  | Some e =>
      match expire_at e with
      | None => -1
      | Some d => d - now r
      end
  end.

(** INCR key: a missing key counts from zero and gets no deadline, a
    present key keeps its deadline. *)
Definition INCR (k : string) (r : redis) : Z * redis :=
  match live r k with
  | None => (1, Mk (<[k := Entry 1 None]> (db r)) (now r))
  | Some e =>
      (value e + 1,
       Mk (<[k := Entry (value e + 1) (expire_at e)]> (db r)) (now r))
  end.

(** EXPIRE key seconds: 0 without the key; a deadline that is not in the
    future deletes the key. *)
Definition EXPIRE (k : string) (s : Z) (r : redis) : Z * redis :=
  match live r k with
  | None => (0, r)
  | Some e =>
      if s <=? 0 then (1, Mk (delete k (db r)) (now r))
      else (1, Mk (<[k := Entry (value e) (Some (now r + s))]> (db r)) (now r))
  end.

(** SET key value EX seconds: refused unless [seconds] is positive. *)
Definition SET_EX (k : string) (v : Z) (s : Z) (r : redis) : option redis :=
  if s <=? 0 then None
  else Some (Mk (<[k := Entry v (Some (now r + s))]> (db r)) (now r)).

(** *** Client programs

    An [async] function of the client is a tree of commands: each node is
    one awaited round trip, the continuation receives the reply. *)

Inductive prog (A : Type) : Type :=
| Ret (a : A)
| Ttl (k : string) (cont : Z → prog A)
| Incr (k : string) (cont : Z → prog A)
| Expire (k : string) (s : Z) (cont : Z → prog A)
| SetEx (k : string) (v : Z) (s : Z) (cont : unit → prog A).

Arguments Ret {A} a.
Arguments Ttl {A} k cont.
Arguments Incr {A} k cont.
Arguments Expire {A} k s cont.
Arguments SetEx {A} k v s cont.

Fixpoint prog_bind {A B} (f : A → prog B) (p : prog A) : prog B :=
  match p with
  | Ret a => f a
  | Ttl k c => Ttl k (λ z, prog_bind f (c z))
  | Incr k c => Incr k (λ z, prog_bind f (c z))
  | Expire k s c => Expire k s (λ z, prog_bind f (c z))
  | SetEx k v s c => SetEx k v s (λ u, prog_bind f (c u))
  end.

#[global] Instance prog_ret : MRet prog := @Ret.
#[global] Instance prog_mbind : MBind prog := @prog_bind.

Definition ttl (k : string) : prog Z := Ttl k Ret.
Definition incr (k : string) : prog Z := Incr k Ret.
Definition expire (k : string) (s : Z) : prog Z := Expire k s Ret.
Definition set_ex (k : string) (v s : Z) : prog unit := SetEx k v s Ret.

(** How a call ends: the promise is fulfilled, or rejected with the
    server's error reply. *)
Inductive outcome (A : Type) : Type :=
| Fulfilled (a : A)
| Rejected (err : string).

Arguments Fulfilled {A} a.
Arguments Rejected {A} err.

(** One client, run to completion. Every round trip takes its time: the
    command reaches the server [hd 0 lag] seconds after the previous reply,
    and [lag] lists these delays for the commands to come. *)
Fixpoint exec {A} (p : prog A) (lag : list nat) (r : redis)
  : outcome A * redis * list nat :=
  match p with
  | Ret a => (Fulfilled a, r, lag)
  | Ttl k c =>
      let r1 := advance (hd 0%nat lag) r in
      exec (c (TTL k r1)) (tl lag) r1
  | Incr k c =>
      let '(n, r2) := INCR k (advance (hd 0%nat lag) r) in
      exec (c n) (tl lag) r2
  | Expire k s c =>
      let '(n, r2) := EXPIRE k s (advance (hd 0%nat lag) r) in
      exec (c n) (tl lag) r2
  | SetEx k v s c =>
      let r1 := advance (hd 0%nat lag) r in
      match SET_EX k v s r1 with
      | Some r2 => exec (c ()) (tl lag) r2
      | None => (Rejected "ERR invalid expire time in 'set' command", r1, tl lag)
      end
  end.

End Redis.

(** ** throttler/redis-storage.service.ts *)

Module Throttler.
Import Redis.

Record ThrottlerStorageRecord := {
  totalHits : Z;
  timeToExpire : Z;
  blockDuration : Z;
  key : string;
  limit : Z;
  isBlocked : bool;
  timeToBlockExpire : Z
}.

Definition recordKey (throttlerName key : string) : string :=
  throttlerName +:+ ":" +:+ key.

Definition blockKey (throttlerName key : string) : string :=
  recordKey throttlerName key +:+ ":block".

(** [CustomRedisStorageService.increment] *)
Definition increment (key : string) (ttl limit blockDuration : Z)
    (throttlerName : string) : prog ThrottlerStorageRecord :=
  let recordKey := recordKey throttlerName key in
  let blockKey := blockKey throttlerName key in
  blockedTtl ← Redis.ttl blockKey;
  if 0 <? blockedTtl then
    mret {| totalHits := limit; timeToExpire := 0;
            blockDuration := blockDuration; key := key; limit := limit;
            isBlocked := true; timeToBlockExpire := blockedTtl |}
  else
    requests ← Redis.incr recordKey;
    _ ← (if requests =? 1 then Redis.expire recordKey ttl else mret 0);
    timeToExpire ← Redis.ttl recordKey;
    if limit <? requests then
      _ ← Redis.set_ex blockKey 1 blockDuration;
      mret {| totalHits := requests; timeToExpire := timeToExpire;
              blockDuration := blockDuration; key := key; limit := limit;
              isBlocked := true; timeToBlockExpire := blockDuration |}
    else
      mret {| totalHits := requests; timeToExpire := timeToExpire;
              blockDuration := blockDuration; key := key; limit := limit;
              isBlocked := false; timeToBlockExpire := 0 |}.

(** [n] calls one after the other, each awaited before the next starts.
    A rejected call does not stop the caller from calling again. *)
Fixpoint calls (n : nat) (key : string) (ttl limit blockDuration : Z)
    (throttlerName : string) (lag : list nat) (r : redis)
  : list (outcome ThrottlerStorageRecord) * redis * list nat :=
  match n with
  | O => ([], r, lag)
  | S n' =>
      let '(o, r1, lag1) :=
        exec (increment key ttl limit blockDuration throttlerName) lag r in
      let '(os, r2, lag2) :=
        calls n' key ttl limit blockDuration throttlerName lag1 r1 in
      (o :: os, r2, lag2)
  end.

End Throttler.

(** ** Several gateway instances on one Redis server

    Every instance runs [increment] as its own client; the server takes
    their commands one at a time, in any order, and its clock moves on in
    between. A counting window starts when INCR answers 1, which is when
    [increment] sets the counter's time to live. *)

Module Interleaving.
Import Redis Throttler.

Inductive activity :=
| Pending (p : prog ThrottlerStorageRecord)
| Failed (err : string).

(** A call in flight: what is left of it, and the window and hit number its
    INCR was answered with (for the record only, no command reads it). *)
Record thread := {
  code : activity;
  seen : option (nat * Z)
}.

Record config := {
  server : redis;
  window : nat;
  pool : list thread
}.

(** The next command of a thread, run by the server. [None] when the thread
    has nothing left to send. *)
Definition run_cmd (r : redis) (w : nat) (t : thread)
  : option (redis * nat * thread) :=
  match code t with
  | Failed _ => None
  | Pending (Ret _) => None
  | Pending (Ttl k c) =>
      Some (r, w, {| code := Pending (c (TTL k r)); seen := seen t |})
  | Pending (Incr k c) =>
      let '(n, r') := INCR k r in
      let w' := if n =? 1 then S w else w in
      Some (r', w', {| code := Pending (c n); seen := Some (w', n) |})
  | Pending (Expire k s c) =>
      let '(n, r') := EXPIRE k s r in
      Some (r', w, {| code := Pending (c n); seen := seen t |})
  | Pending (SetEx k v s c) =>
      match SET_EX k v s r with
      | Some r' => Some (r', w, {| code := Pending (c ()); seen := seen t |})
      | None =>
          Some (r, w, {| code := Failed "ERR invalid expire time in 'set' command";
                         seen := seen t |})
      end
  end.

Inductive step : config → config → Prop :=
| step_tick (d : nat) (c : config) :
    step c {| server := advance d (server c); window := window c; pool := pool c |}
| step_cmd (i : nat) (t t' : thread) (r' : redis) (w' : nat) (c : config) :
    pool c !! i = Some t →
    run_cmd (server c) (window c) t = Some (r', w', t') →
    step c {| server := r'; window := w'; pool := <[i := t']> (pool c) |}.

(** [n] calls with the same arguments, none of them started yet. *)
Definition init (r : redis) (n : nat) (key : string) (ttl limit blockDuration : Z)
    (throttlerName : string) : config :=
  {| server := r; window := O;
     pool := replicate n
       {| code := Pending (increment key ttl limit blockDuration throttlerName);
          seen := None |} |}.

(** The hit number of a call that came back unblocked in window [w]. *)
Definition passed_in (w : nat) (t : thread) : option Z :=
  match code t, seen t with
  | Pending (Ret rec), Some (w', n) =>
      if isBlocked rec then None
      else if bool_decide (w' = w) then Some n else None
  | _, _ => None
  end.

(** The calls that came back unblocked in window [w]. *)
Definition passed (w : nat) (c : config) : list Z :=
  omap (passed_in w) (pool c).

(** The record of a call that has come back unblocked, whatever it sent. *)
Definition returned_unblocked (t : thread) : option ThrottlerStorageRecord :=
  match code t with
  | Pending (Ret rec) => if isBlocked rec then None else Some rec
  | _ => None
  end.

Definition unblocked (c : config) : list ThrottlerStorageRecord :=
  omap returned_unblocked (pool c).

(** A scheduler that can be run: [fire i] lets the server take the next
    command of thread [i] (nothing happens if there is none), [wait d] lets
    [d] seconds pass. *)
Inductive turn := fire (i : nat) | wait (d : nat).

Definition take_turn (c : config) (u : turn) : config :=
  match u with
  | wait d =>
      {| server := advance d (server c); window := window c; pool := pool c |}
  | fire i =>
      match pool c !! i with
      | Some t =>
          match run_cmd (server c) (window c) t with
          | Some (r', w', t') =>
              {| server := r'; window := w'; pool := <[i := t']> (pool c) |}
          | None => c
          end
      | None => c
      end
  end.

Definition run_schedule (sched : list turn) (c : config) : config :=
  foldl take_turn c sched.

(** *** Invariants of a pool of [increment] calls

    [before rk limit p]: [p] has not sent its INCR yet; whatever it returns
    without sending it is a blocked record, and its INCR goes to the counter
    [rk]. [after rk limit n p]: [p] was answered [n] by INCR; it never
    writes to [rk] with SET, and it returns an unblocked record only if
    [n] is within the limit, with [n] as the record's hits. *)

Inductive after (rk : string) (limit n : Z)
  : prog ThrottlerStorageRecord → Prop :=
| after_ret rec :
    (isBlocked rec = false → totalHits rec = n ∧ n ≤ limit) →
    after rk limit n (Ret rec)
| after_ttl k c :
    (∀ z, after rk limit n (c z)) → after rk limit n (Ttl k c)
| after_expire k s c :
    (∀ z, after rk limit n (c z)) → after rk limit n (Expire k s c)
| after_set k v s c :
    k ≠ rk → (∀ u, after rk limit n (c u)) → after rk limit n (SetEx k v s c).

Inductive before (rk : string) (limit : Z)
  : prog ThrottlerStorageRecord → Prop :=
| before_ret rec : isBlocked rec = true → before rk limit (Ret rec)
| before_ttl k c : (∀ z, before rk limit (c z)) → before rk limit (Ttl k c)
| before_incr c : (∀ n, after rk limit n (c n)) → before rk limit (Incr rk c).

Definition thread_ok (rk : string) (limit : Z) (t : thread) : Prop :=
  match code t with
  | Failed _ => True
  | Pending p =>
      match seen t with
      | None => before rk limit p
      | Some (_, n) => after rk limit n p
      end
  end.

Record invariant (rk : string) (limit : Z) (c : config) : Prop := {
  inv_threads : Forall (thread_ok rk limit) (pool c);
  inv_value : ∀ e, db (server c) !! rk = Some e → 0 ≤ value e;
  inv_nodup : NoDup (omap seen (pool c));
  inv_bound : ∀ w n, (w, n) ∈ omap seen (pool c) →
    (w ≤ window c)%nat ∧ 1 ≤ n ∧
    (w = window c → ∀ e, live (server c) rk = Some e → n ≤ value e)
}.

End Interleaving.


(** ** common/interceptors/response.interceptors.ts *)

Module Envelope.
Import Js.

(** The function [ResponseInterceptor.intercept] maps over what the handler
    emits. *)
Definition envelope (data : value) : value :=
  if negb (is_undefined (get data "success")) then data
  else if truthy (get data "meta") then
    VObj [("success", VBool true);
          ("data", nullish_or (get data "data") (VObj []));
          ("message", nullish_or (get data "message") (VStr "Request successful"));
          ("meta", get data "meta")]
  else
    VObj [("success", VBool true);
          ("data", data);
          ("message", VStr "Request successful");
          ("meta", VObj [])].

(** [ResponseInterceptor.intercept]: [next.handle().pipe(map(...))], the
    stream being the list of the values it emits. *)
Definition intercept (handle : list value) : list value :=
  envelope <$> handle.

(** What [getResponse()] of an [HttpException] gives: a string or an
    object. *)
Inductive http_response :=
| ResponseText (s : string)
| ResponseObject (props : list (string * value)).

Definition response_value (r : http_response) : value :=
  match r with
  | ResponseText s => VStr s
  | ResponseObject props => VObj props
  end.

(** Whatever can be thrown: an [HttpException] with its status, response
    and message, or any other value. *)
Inductive exception :=
| HttpException (status : Z) (response : http_response) (message : string)
| Thrown (v : value).

(** The Express response as far as the filter uses it: every call of
    [json] is recorded in [written], latest first. *)
Record Response := {
  headersSent : bool;
  statusCode : Z;
  written : list value
}.

(** [res.status(code).json(body)] *)
Definition status_json (code : Z) (body : value) (res : Response) : Response :=
  {| headersSent := true; statusCode := code; written := body :: written res |}.

Definition getStatus (e : exception) : Z :=
  match e with
  | HttpException status _ _ => status
  | Thrown _ => 500
  end.

Definition getMessage (e : exception) : value :=
  match e with
  | HttpException _ response message =>
      or_else (get (response_value response) "message") (VStr message)
  | Thrown _ => VStr "Internal server error"
  end.

Definition error_body (message : value) : value :=
  VObj [("success", VBool false);
        ("error", message);
        ("message", message);
        ("data", VObj []);
        ("meta", VObj [])].

(** [HttpExceptionFilter.catch] *)
Definition catch (e : exception) (response : Response) : Response :=
  if headersSent response then response
  else status_json (getStatus e) (error_body (getMessage e)) response.

End Envelope.

(** ** The gateway's request pipeline: common/jwt-helper.ts,
    middleware/proxy.middleware.ts and main.ts *)

Module Gateway.
Import Js.

Record JwtPayload := { user_id : string; role : string }.

Record User := { userId : string }.

(** A header of [req.headers] is a string or an array of strings. *)
Inductive header_value :=
| HStr (s : string)
| HArr (items : list string).

Record Request := {
  method : string;
  originalUrl : string;
  url : string;
  headers : gmap string header_value
}.

(** [UserRequest]: the request and the identity the gateway attached. *)
Record UserRequest := {
  inbound : Request;
  user : option User
}.

(** What the process is given from outside: the configured secret and
    upstream addresses, the [jsonwebtoken] verification ([None] when it
    throws), the sequence of identifiers [uuid] hands out, and the headers
    [express-http-proxy] has prepared when it calls the decorator. *)
Record Env := {
  JWT_SECRET : option string;
  verify : string → string → option JwtPayload;
  userServiceUrl : string;
  orchestratorUrl : string;
  templateServiceUrl : string;
  uuidv4 : nat → string;
  proxyReqOpts : Request → gmap string string
}.

(** What a request makes the gateway do, in order. *)
Inductive event :=
| Validate (token : string)
| Proxy (target : string) (path : string) (hdrs : gmap string string)
| Reply (status : Z) (body : value)
| Next.

(** *** JwtHelper *)

(** [validateToken]: no secret, no claims. *)
Definition validateToken (E : Env) (token : string) : option JwtPayload :=
  match JWT_SECRET E with
  | Some secret => if truthy_str secret then verify E token secret else None
  | None => None
  end.

Definition hv_truthy (h : option header_value) : bool :=
  match h with
  | Some (HStr s) => truthy_str s
  | Some (HArr _) => true
  | None => false
  end.

(** [req.get(name)] of Express looks the lower-cased name up. *)
Definition req_get (req : Request) (name : string) : option header_value :=
  headers req !! toLowerCase name.

(** [a || b] on header values *)
Definition hv_or (a b : option header_value) : option header_value :=
  if hv_truthy a then a else b.

(** [extractTokenFromRequest] *)
Definition extractTokenFromRequest (req : Request) : option string :=
  let authHeader :=
    hv_or (headers req !! "authorization")
      (hv_or (headers req !! "Authorization")
         (hv_or (headers req !! "AUTHORIZATION")
            (hv_or (req_get req "authorization")
               (req_get req "Authorization")))) in
  if negb (hv_truthy authHeader) then None
  else
    match authHeader with
    | Some (HStr s) =>
        if startsWith s "Bearer " then Some (trim (substring_from 7 s))
        else Some (trim s)
    | _ => None
    end.

(** *** ProxyMiddleware *)

Inductive ExtraHeaders :=
| Static (hdrs : gmap string string)
| Dynamic (compute : UserRequest → nat → gmap string string * nat).

Record ProxyOptions := { extraHeaders : option ExtraHeaders }.

(** [req.originalUrl || req.url] *)
Definition original_or_url (req : Request) : string :=
  if truthy_str (originalUrl req) then originalUrl req else url req.

(** The first string of a header as the decorator copies it. *)
Definition copied (h : header_value) : option string :=
  match h with
  | HStr s => Some s
  | HArr (s :: _) => Some s
  | HArr [] => None
  end.

Definition falsy_header (h : option string) : bool :=
  match h with
  | Some s => negb (truthy_str s)
  | None => true
  end.

(** The property names every plain object inherits from
    [Object.prototype]; all of them are truthy when read. *)
Definition object_prototype : list string :=
  ["constructor"; "__defineGetter__"; "__defineSetter__"; "hasOwnProperty";
   "__lookupGetter__"; "__lookupSetter__"; "isPrototypeOf";
   "propertyIsEnumerable"; "toString"; "valueOf"; "__proto__";
   "toLocaleString"].

Definition inherited (k : string) : bool :=
  existsb (String.eqb k) object_prototype.

(** [!proxyReqOpts.headers[key]] on the plain object the prepared headers
    are: an own property counts if it is a non-empty string; without an own
    property the read falls through to the prototype. *)
Definition unset (k : string) (mine : option string) : bool :=
  match mine with
  | Some s => negb (truthy_str s)
  | None => negb (inherited k)
  end.

(** One key of "preserve all original headers": the prepared value stays
    unless reading it gives something falsy and the inbound request has a
    string to copy. *)
Definition preserve (k : string) (mine : option string)
    (theirs : option header_value) : option string :=
  if unset k mine then
    match theirs ≫= copied with
    | Some s => Some s
    | None => mine
    end
  else mine.

Definition pair_up {A B} (a : option A) (b : option B)
  : option (option A * option B) :=
  match a, b with
  | None, None => None
  | _, _ => Some (a, b)
  end.

(** The loop over [Object.keys(srcReq.headers)]. *)
Definition preserve_all (h : gmap string string)
    (src : gmap string header_value) : gmap string string :=
  map_imap (λ k p, preserve k p.1 p.2) (merge pair_up h src).

Definition default_content_type (h : gmap string string) : gmap string string :=
  if falsy_header (h !! "Content-Type")
  then <["Content-Type" := "application/json"]> h else h.

Definition authHeaderValue (req : Request) : option string :=
  match headers req !! "authorization" with
  | Some (HStr s) => Some s
  | _ =>
      match headers req !! "Authorization" with
      | Some (HStr s) => Some s
      | _ => None
      end
  end.

Definition keep_authorization (req : Request) (h : gmap string string)
  : gmap string string :=
  match authHeaderValue req with
  | Some s => if truthy_str s then <["Authorization" := s]> h else h
  | None => h
  end.

Definition add_user_id (addUserHeader : bool) (u : option User)
    (h : gmap string string) : gmap string string :=
  match u with
  | Some usr => if addUserHeader then <["x-user-id" := userId usr]> h else h
  | None => h
  end.

Definition run_extra (options : ProxyOptions) (srcReq : UserRequest) (rng : nat)
  : option (gmap string string) * nat :=
  match extraHeaders options with
  | Some (Dynamic compute) =>
      let '(h, rng') := compute srcReq rng in (Some h, rng')
  | Some (Static h) => (Some h, rng)
  | None => (None, rng)
  end.

(** Every entry of the extra headers whose value is a non-blank string is
    written over what is there. *)
Definition set_extra (extra : option (gmap string string))
    (h : gmap string string) : gmap string string :=
  match extra with
  | Some x => filter (λ kv : string * string, non_blank kv.2 = true) x ∪ h
  | None => h
  end.

(** [proxyReqOptDecorator] *)
Definition proxyReqOptDecorator (addUserHeader : bool) (options : ProxyOptions)
    (prepared : gmap string string) (srcReq : UserRequest) (rng : nat)
  : gmap string string * nat :=
  let h1 := default_content_type prepared in
  let h2 := preserve_all h1 (headers (inbound srcReq)) in
  let h3 := keep_authorization (inbound srcReq) h2 in
  let h4 := add_user_id addUserHeader (user srcReq) h3 in
  let '(extra, rng') := run_extra options srcReq rng in
  (set_extra extra h4, rng').

Definition unauthorized : value :=
  VObj [("success", VBool false); ("message", VStr "Unauthorized")].

(** [req.proxy], the function [ProxyMiddleware.use] installs. *)
Definition proxy (E : Env) (req : UserRequest) (targetUrl pathPrefix : string)
    (addUserHeader : bool) (options : ProxyOptions) (rng : nat)
  : list event * nat :=
  let originalUrl := original_or_url (inbound req) in
  if negb (startsWith originalUrl pathPrefix) then ([Next], rng)
  else if addUserHeader && negb (bool_decide (is_Some (user req))) then
    ([Reply 401 unauthorized], rng)
  else
    let '(hdrs, rng') :=
      proxyReqOptDecorator addUserHeader options
        (proxyReqOpts E (inbound req)) req rng in
    ([Proxy targetUrl originalUrl hdrs], rng').

(** *** main.ts *)

Record ProxyRoute := {
  path : string;
  target : string;
  requireAuth : Request → bool;
  routeHeaders : option ExtraHeaders
}.

Definition publicPaths : list string :=
  ["/user/signup"; "/user/signin"; "/signup"; "/signin"].

Definition isPublic (req : Request) : bool :=
  let requestPath := split_query_head (original_or_url req) in
  let relativePath := split_query_head (url req) in
  existsb
    (λ publicPath,
       String.eqb requestPath publicPath
       || startsWith requestPath (publicPath +:+ "/")
       || String.eqb relativePath publicPath
       || startsWith relativePath (publicPath +:+ "/")
       || includes requestPath "signin"
       || includes requestPath "signup")
    publicPaths.

Definition resolveHeaderValue (v : option header_value) : option string :=
  match v with
  | Some (HArr items) => List.find non_blank items
  | Some (HStr s) => if non_blank s then Some s else None
  | None => None
  end.

(** [existing ?? uuidv4()] *)
Definition existing_or_uuid (E : Env) (existing : option string) (rng : nat)
  : string * nat :=
  match existing with
  | Some s => (s, rng)
  | None => (uuidv4 E rng, S rng)
  end.

(** The header strategy of the notifications route. *)
Definition notificationHeaders (E : Env) (req : UserRequest) (rng : nat)
  : gmap string string * nat :=
  let existingIdempotencyKey :=
    resolveHeaderValue (headers (inbound req) !! "x-idempotency-key") in
  let existingCorrelationId :=
    resolveHeaderValue (headers (inbound req) !! "x-correlation-id") in
  let '(idem, rng1) := existing_or_uuid E existingIdempotencyKey rng in
  let '(corr, rng2) := existing_or_uuid E existingCorrelationId rng1 in
  (<["X-Correlation-ID" := corr]> (<["X-Idempotency-Key" := idem]> ∅), rng2).

Definition userRoute (E : Env) : ProxyRoute :=
  {| path := "/user"; target := userServiceUrl E;
     requireAuth := λ req, negb (isPublic req);
     routeHeaders := None |}.

Definition templateRoute (E : Env) : ProxyRoute :=
  {| path := "/template"; target := templateServiceUrl E;
     requireAuth := λ _, true;
     routeHeaders := None |}.

Definition notificationsRoute (E : Env) : ProxyRoute :=
  {| path := "/notifications"; target := orchestratorUrl E;
     requireAuth := λ _, false;
     routeHeaders := Some (Dynamic (notificationHeaders E)) |}.

Definition proxyRoutes (E : Env) : list ProxyRoute :=
  [userRoute E; templateRoute E; notificationsRoute E].

(** "Validate JWT token and set user if present": the first half of the
    middleware registered for a route. *)
Definition authenticate (E : Env) (req : Request) : list event * option User :=
  match extractTokenFromRequest req with
  | Some token =>
      if truthy_str token then
        ([Validate token],
         match validateToken E token with
         | Some payload => Some {| userId := user_id payload |}
         | None => None
         end)
      else ([], None)
  | None => ([], None)
  end.

(** The middleware [app.use(path, ...)] registers for a route. *)
Definition middleware (E : Env) (rt : ProxyRoute) (req : Request) (rng : nat)
  : list event * nat :=
  let '(seen, usr) := authenticate E req in
  let userReq := {| inbound := req; user := usr |} in
  let addUserHeader := requireAuth rt req in
  let '(acted, rng') :=
    proxy E userReq (target rt) (path rt) addUserHeader
      {| extraHeaders := routeHeaders rt |} rng in
  ((seen ++ acted)%list, rng').

End Gateway.

(** ** The failure paths of the proxy: middleware/proxy.middleware.ts and
    main.ts *)

Module ProxyErrors.
Import Js Envelope.

(** What reaches an error callback: an [Error] with its message, a string,
    or any other value. *)
Inductive js_error :=
| ErrorObject (message : string)
| ThrownString (s : string)
| ThrownOther (v : value).

(** [if (err)] *)
Definition truthy_error (err : option js_error) : bool :=
  match err with
  | None => false
  | Some (ErrorObject _) => true
  | Some (ThrownString s) => truthy_str s
  | Some (ThrownOther v) => truthy v
  end.

(** [err instanceof Error ? err.message : fallback] *)
Definition message_or (fallback : string) (err : js_error) : string :=
  match err with
  | ErrorObject m => m
  | _ => fallback
  end.

Definition proxy_failure (message : string) (error : value) : value :=
  VObj [("success", VBool false); ("message", VStr message); ("error", error)].

(** [proxyErrorHandler] *)
Definition proxyErrorHandler (err : js_error) (res : Response) : Response :=
  if headersSent res then res
  else status_json 500
         (proxy_failure "Proxy server error"
            (VStr (message_or "Unknown proxy error" err))) res.

(** The callback handed to the proxy: the response, and whether [next]
    was called. [JSON_stringify] is the rendering of a value that is
    neither an [Error] nor a string. *)
Definition proxy_callback (JSON_stringify : value → value)
    (err : option js_error) (res : Response) : Response * bool :=
  if truthy_error err then
    let errorMessage :=
      match err with
      | Some (ErrorObject m) => VStr m
      | Some (ThrownString s) => VStr s
      | Some (ThrownOther v) => JSON_stringify v
      | None => VUndefined
      end in
    (if negb (headersSent res)
     then status_json 500 (proxy_failure "Proxy error" errorMessage) res
     else res, false)
  else (res, negb (headersSent res)).

(** The [catch] around the proxy call in the middleware. *)
Definition setup_failed (err : js_error) (res : Response) : Response :=
  if negb (headersSent res)
  then status_json 500
         (proxy_failure "Failed to setup proxy"
            (VStr (message_or "Unknown error" err))) res
  else res.

(** The [catch] around [userReq.proxy] in main.ts. *)
Definition execution_failed (err : js_error) (res : Response) : Response :=
  if negb (headersSent res)
  then status_json 500
         (proxy_failure "Proxy execution error"
            (VStr (message_or "Unknown error" err))) res
  else res.

(** Any of the places where a failure of a request can surface. *)
Inductive failure :=
| ProxyError (err : js_error)
| CallbackError (err : option js_error)
| SetupError (err : js_error)
| ExecutionError (err : js_error)
| Uncaught (e : exception).

Definition surface (JSON_stringify : value → value) (f : failure)
    (res : Response) : Response :=
  match f with
  | ProxyError err => proxyErrorHandler err res
  | CallbackError err => (proxy_callback JSON_stringify err res).1
  | SetupError err => setup_failed err res
  | ExecutionError err => execution_failed err res
  | Uncaught e => catch e res
  end.

End ProxyErrors.

(** ** auth/jwt-auth.guard.ts *)

Module Guard.
Import Js.

(** [s.endsWith(t)] *)
Fixpoint endsWith (s t : string) : bool :=
  String.eqb s t ||
  match s with
  | EmptyString => false
  | String _ rest => endsWith rest t
  end.

(** [toLowerCase] on the characters a request target can carry: the ASCII
    letters and the Latin-1 capitals. *)
Definition lower1 (c : ascii) : ascii :=
  let n := Ascii.nat_of_ascii c in
  if ((65 <=? n)%nat && (n <=? 90)%nat)
     || ((192 <=? n)%nat && (n <=? 222)%nat && negb (n =? 215)%nat)
  then Ascii.ascii_of_nat (n + 32) else c.

Fixpoint toLowerCase1 (s : string) : string :=
  match s with
  | EmptyString => EmptyString
  | String c rest => String (lower1 c) (toLowerCase1 rest)
  end.

(** The request as the guard reads it; an absent field is the empty
    string, which the guard treats alike. *)
Record GuardRequest := {
  originalUrl : string;
  url : string;
  routePath : string;
  baseUrl : string;
  method : string
}.

Definition publicRoutes : list string :=
  ["/user/signup"; "/user/signin"; "/signup"; "/signin"].

Definition guard_url (req : GuardRequest) : string :=
  if truthy_str (originalUrl req) then originalUrl req
  else if truthy_str (url req) then url req
  else if truthy_str (routePath req) then routePath req
  else "".

Definition requestPath (req : GuardRequest) : string :=
  toLowerCase1 (split_query_head (guard_url req)).

Definition fullPath (req : GuardRequest) : string :=
  toLowerCase1 (baseUrl req +:+ requestPath req).

Definition isPublicRoute (req : GuardRequest) : bool :=
  let requestPath := requestPath req in
  let fullPath := fullPath req in
  existsb
    (λ route,
       let normalizedRoute := toLowerCase1 route in
       String.eqb requestPath normalizedRoute
       || String.eqb requestPath (normalizedRoute +:+ "/")
       || endsWith requestPath ("/" +:+ normalizedRoute)
       || endsWith requestPath ("/" +:+ normalizedRoute +:+ "/")
       || String.eqb fullPath normalizedRoute
       || String.eqb fullPath (normalizedRoute +:+ "/")
       || endsWith fullPath ("/" +:+ normalizedRoute)
       || endsWith fullPath ("/" +:+ normalizedRoute +:+ "/")
       || includes requestPath "signin"
       || includes requestPath "signup")
    publicRoutes.

(** What [canActivate] does: let the request in, or hand the decision to
    the passport strategy. *)
Inductive decision := Allow | Passport.

Definition canActivate (req : GuardRequest) : decision :=
  if isPublicRoute req then Allow else Passport.

End Guard.

(** ** Pagination in user.service.ts and template.service.ts *)

Module Pagination.

Record PaginationDto := { dto_page : option Z; dto_limit : option Z }.

Record PaginationMeta := {
  total : Z;
  limit : Z;
  page : Z;
  total_pages : Z;
  has_next : bool;
  has_previous : bool
}.

(** [Math.ceil(a / b)] for a count [a] and a positive [b]. *)
Definition ceil_div (a b : Z) : Z := - ((- a) / b).

(** [findMany({ skip, take })] over the rows in the order of the query. *)
Definition findMany {A} (skip take : Z) (rows : list A) : list A :=
  firstn (Z.to_nat take) (skipn (Z.to_nat skip) rows).

Inductive paginated (A : Type) :=
| Page (data : list A) (meta : PaginationMeta)
| NotFound (page : Z).

Arguments Page {A} data meta.
Arguments NotFound {A} page.

(** [getPaginatedUsers], [getPaginatedUserPreferences] and
    [getPaginatedTemplates] once the rows the query ranges over are
    given. *)
Definition getPaginated {A} (dto : PaginationDto) (rows : list A)
  : paginated A :=
  let page := default 1 (dto_page dto) in
  let limit := default 10 (dto_limit dto) in
  let skip := (page - 1) * limit in
  let total := Z.of_nat (length rows) in
  let data := findMany skip limit rows in
  let totalPages := ceil_div total limit in
  let meta :=
    {| total := total; limit := limit; page := page;
       total_pages := totalPages;
       has_next := page <? totalPages;
       has_previous := 1 <? page |} in
  if (Nat.eqb (length data) 0) && (1 <? page) then NotFound page
  else Page data meta.

End Pagination.

(** ** Observations and concrete scenarios *)

Module Scenario.
Import Js Gateway.

(** The headers of the outbound call a trace records, if it records one. *)
Fixpoint forwarded (evs : list event) : option (gmap string string) :=
  match evs with
  | [] => None
  | Proxy _ _ hdrs :: _ => Some hdrs
  | _ :: rest => forwarded rest
  end.

Definition is_validate (ev : event) : bool :=
  match ev with Validate _ => true | _ => false end.

Definition is_proxy (ev : event) : bool :=
  match ev with Proxy _ _ _ => true | _ => false end.

(** A store in which the key "ip" of the throttler "default" is blocked for
    another 30 seconds while its counter stands at 7. *)
Definition blocked_store : Redis.redis :=
  Redis.Mk (<[ "default:ip" := Redis.Entry 7 (Some 50) ]>
              {[ "default:ip:block" := Redis.Entry 1 (Some 30) ]}) 0.

(** What a call two seconds into that block is answered. *)
Definition blocked_record : Throttler.ThrottlerStorageRecord :=
  {| Throttler.totalHits := 3; Throttler.timeToExpire := 0;
     Throttler.blockDuration := 30; Throttler.key := "ip";
     Throttler.limit := 3; Throttler.isBlocked := true;
     Throttler.timeToBlockExpire := 28 |}.

(** A counter left without a deadline, and no block. *)
Definition orphan_store : Redis.redis :=
  Redis.Mk {[ "default:ip" := Redis.Entry 2 None ]} 0.

(** At time 40 the block set at time 0 for 30 seconds has run out, while
    the counter, at 4 with limit 3, lives until 50. *)
Definition stale_store : Redis.redis :=
  Redis.Mk (<[ "default:ip" := Redis.Entry 4 (Some 50) ]>
              {[ "default:ip:block" := Redis.Entry 1 (Some 30) ]}) 40.

(** Three callers taking turns, one command each, with a second passing
    between rounds. *)
Definition round_robin : list Interleaving.turn :=
  concat (replicate 6
    [Interleaving.fire 0; Interleaving.fire 1; Interleaving.fire 2;
     Interleaving.wait 1]).

(** Two callers, limit 1. The first is answered 1 by INCR and sets the
    deadline; the second then runs to its end and sets the block; six
    seconds later the first still has its last command to send. *)
Definition late_answer : list Interleaving.turn :=
  [Interleaving.fire 0; Interleaving.fire 0; Interleaving.fire 0;
   Interleaving.fire 1; Interleaving.fire 1; Interleaving.fire 1;
   Interleaving.fire 1; Interleaving.wait 6].

(** Three callers, limit 1. The first passes; the other two both find no
    block; the second is answered 2 and sets the block; ten seconds later
    the third is answered 3 and has the block left to set. *)
Definition second_block : list Interleaving.turn :=
  [Interleaving.fire 0; Interleaving.fire 0; Interleaving.fire 0;
   Interleaving.fire 0;
   Interleaving.fire 1; Interleaving.fire 2;
   Interleaving.fire 1; Interleaving.fire 1; Interleaving.fire 1;
   Interleaving.wait 10;
   Interleaving.fire 2; Interleaving.fire 2].

(** A generator that never repeats itself: the [n]-th identifier is [n]
    strokes long. *)
Fixpoint strokes (n : nat) : string :=
  match n with
  | O => EmptyString
  | S n' => String "|"%char (strokes n')
  end.

(** A gateway configured with a secret, whose verifier accepts the one token
    "good", and whose proxy library hands the decorator no headers. *)
Definition demo : Env :=
  {| JWT_SECRET := Some "s3cret";
     verify := λ token _,
       if String.eqb token "good"
       then Some {| user_id := "u-1"; role := "user" |} else None;
     userServiceUrl := "http://user:3001";
     orchestratorUrl := "http://orchestrator:3002";
     templateServiceUrl := "http://template:3003";
     uuidv4 := λ n, "uuid-" +:+ strokes n;
     proxyReqOpts := λ _, ∅ |}.

Definition request (m path rel : string) (hs : list (string * header_value))
  : Request :=
  {| method := m; originalUrl := path; url := rel; headers := list_to_map hs |}.

(** The same gateway started without a secret. *)
Definition no_secret : Env :=
  {| JWT_SECRET := None;
     verify := verify demo;
     userServiceUrl := userServiceUrl demo;
     orchestratorUrl := orchestratorUrl demo;
     templateServiceUrl := templateServiceUrl demo;
     uuidv4 := uuidv4 demo;
     proxyReqOpts := proxyReqOpts demo |}.

(** GET /user/42 with a token that validates and an x-user-id of the
    client's own making. *)
Definition spoofing : Request :=
  request "GET" "/user/42" "/42"
    [("authorization", HStr "Bearer good"); ("x-user-id", HStr "u-999");
     ("accept", HStr "text/html")].

(** POST /notifications/send with a token that validates and an x-user-id
    that is not the token's. *)
Definition identity_claim : Request :=
  request "POST" "/notifications/send" "/send"
    [("authorization", HStr "Bearer good"); ("x-user-id", HStr "u-999")].

Definition good_payload : JwtPayload := {| user_id := "u-1"; role := "user" |}.

(** The request as the decorator gets it on a protected route. *)
Definition spoofing_user : UserRequest :=
  {| inbound := spoofing; user := Some {| userId := "u-1" |} |}.

Definition no_options : ProxyOptions := {| extraHeaders := None |}.

(** POST /user/signin, on the allow-list, with a token the verifier of
    [demo] refuses. *)
Definition signin_with_token : Request :=
  request "POST" "/user/signin" "/signin" [("authorization", HStr "Bearer abc")].

(** The non-breaking space, which [trim] removes and the HTTP parser keeps. *)
Definition nbsp : string := String (Ascii.ascii_of_nat 160) EmptyString.

End Scenario.

(** * Properties *)

(** ** The rate limiter, one caller at a time *)

Section ThrottlerSequential.
Import Redis Throttler.

Lemma exec_bind {A B} (p : prog A) (f : A → prog B) lag r :
  exec (p ≫= f) lag r =
  match exec p lag r with
  | (Fulfilled a, r', lag') => exec (f a) lag' r'
  | (Rejected err, r', lag') => (Rejected err, r', lag')
  end.
Proof.
  revert lag r.
  induction p as [a|k c IH|k c IH|k s c IH|k v s c IH]; intros lag r; cbn.
  - reflexivity.
  - apply IH.
  - destruct (INCR k _) as [n r2]. apply IH.
  - destruct (EXPIRE k s _) as [n r2]. apply IH.
  - destruct (SET_EX k v s _) as [r2|]; [apply IH | reflexivity].
Qed.

Lemma record_block_keys_differ name key : recordKey name key ≠ blockKey name key.
Proof.
  unfold blockKey. generalize (recordKey name key) as s.
  induction s as [|c s IH]; cbn; intros H; [discriminate|].
  injection H as H. exact (IH H).
Qed.

Lemma now_advance d r : now (advance d r) = now r + Z.of_nat d.
Proof. reflexivity. Qed.

Lemma db_advance d r : db (advance d r) = db r.
Proof. reflexivity. Qed.

(** The blocked path of [increment], as one equation. *)
Lemma exec_increment_blocked key ttl limit blockDuration name lag r :
  0 < TTL (blockKey name key) (advance (hd 0%nat lag) r) →
  exec (increment key ttl limit blockDuration name) lag r =
  (Fulfilled
     {| totalHits := limit; timeToExpire := 0; blockDuration := blockDuration;
        key := key; limit := limit; isBlocked := true;
        timeToBlockExpire := TTL (blockKey name key) (advance (hd 0%nat lag) r) |},
   advance (hd 0%nat lag) r, tl lag).
Proof.
  intros Hpos. unfold increment. cbn.
  apply Z.ltb_lt in Hpos. rewrite Hpos. reflexivity.
Qed.

(** C3. A call made while the block record of the key has a positive time to
    live comes back blocked, reports exactly that remaining time, and sends
    the server no command that writes: the store, and with it the counter
    record, is what it was, whatever state the counter is in (present,
    expired or absent). *)
Theorem increment_while_blocked_is_sticky key ttl limit blockDuration name lag r :
  0 < TTL (blockKey name key) (advance (hd 0%nat lag) r) →
  ∃ rec r' lag',
    exec (increment key ttl limit blockDuration name) lag r
      = (Fulfilled rec, r', lag')
    ∧ isBlocked rec = true
    ∧ timeToBlockExpire rec = TTL (blockKey name key) (advance (hd 0%nat lag) r)
    ∧ db r' = db r
    ∧ db r' !! recordKey name key = db r !! recordKey name key.
Proof.
  intros Hpos. eexists _, _, _.
  split; [apply exec_increment_blocked, Hpos|].
  cbn. repeat split; reflexivity.
Qed.

(** C10. On that path the record reports the configured limit as its hit
    count and a window time of zero, whatever the counter record holds. *)
Theorem increment_while_blocked_reports_limit key ttl limit blockDuration name lag r :
  0 < TTL (blockKey name key) (advance (hd 0%nat lag) r) →
  ∃ rec r' lag',
    exec (increment key ttl limit blockDuration name) lag r
      = (Fulfilled rec, r', lag')
    ∧ isBlocked rec = true
    ∧ totalHits rec = limit
    ∧ timeToExpire rec = 0.
Proof.
  intros Hpos. eexists _, _, _.
  split; [apply exec_increment_blocked, Hpos|].
  cbn. repeat split; reflexivity.
Qed.

End ThrottlerSequential.

Section ThrottlerWindow.
Import Redis Throttler.

Lemma live_advance_None d r k : live r k = None → live (advance d r) k = None.
Proof.
  unfold live, expired. cbn. destruct (db r !! k) as [e|]; [|done].
  destruct (expire_at e) as [x|]; [|done].
  destruct (x <=? now r) eqn:Hx; [|done]. intros _.
  apply Z.leb_le in Hx.
  assert ((x <=? now r + Z.of_nat d) = true) as Hd by (apply Z.leb_le; lia).
  by rewrite Hd.
Qed.

Lemma live_Some_inv r k e : live r k = Some e → db r !! k = Some e.
Proof.
  unfold live. destruct (db r !! k) as [e'|]; [|done].
  destruct (expired _ _); [done|]. done.
Qed.

Lemma live_deadline r k v x :
  db r !! k = Some (Entry v (Some x)) → now r < x → live r k = Some (Entry v (Some x)).
Proof.
  intros Hk Hx. unfold live, expired. rewrite Hk. cbn.
  assert ((x <=? now r) = false) as Hd by (apply Z.leb_gt; lia).
  by rewrite Hd.
Qed.

Lemma TTL_None r k : live r k = None → TTL k r = -2.
Proof. unfold TTL. by intros ->. Qed.

Lemma live_insert_ne r k k' e t :
  k ≠ k' → live (Mk (<[k := e]> (db r)) t) k' = live (Mk (db r) t) k'.
Proof. intros Hne. unfold live. cbn. by rewrite lookup_insert_ne. Qed.

Lemma lag_budget (lag : list nat) :
  (hd 0 lag + sum_list (tl lag) = sum_list lag)%nat.
Proof. by destruct lag. Qed.


Lemma INCR_live r k e :
  live r k = Some e →
  INCR k r = (value e + 1,
              Mk (<[k := Entry (value e + 1) (expire_at e)]> (db r)) (now r)).
Proof. unfold INCR. by intros ->. Qed.

Lemma INCR_fresh r k :
  live r k = None → INCR k r = (1, Mk (<[k := Entry 1 None]> (db r)) (now r)).
Proof. unfold INCR. by intros ->. Qed.

Lemma SET_EX_ok k v s r :
  0 < s → SET_EX k v s r = Some (Mk (<[k := Entry v (Some (now r + s))]> (db r)) (now r)).
Proof.
  intros Hs. unfold SET_EX.
  assert ((s <=? 0) = false) as Hle by (apply Z.leb_gt; lia).
  by rewrite Hle.
Qed.

Lemma SET_EX_refused k v s r : s ≤ 0 → SET_EX k v s r = None.
Proof.
  intros Hs. unfold SET_EX.
  assert ((s <=? 0) = true) as Hle by (apply Z.leb_le; lia).
  by rewrite Hle.
Qed.

Lemma TTL_fresh_deadline k v s m t :
  0 < s → TTL k (Mk (<[k := Entry v (Some (t + s))]> m) t) = s.
Proof.
  intros Hs. unfold TTL, live, expired. cbn. rewrite lookup_insert_eq. cbn.
  assert ((t + s <=? t) = false) as Hle by (apply Z.leb_gt; lia).
  rewrite Hle. cbn. lia.
Qed.

Lemma exec_increment_counting key W limit bd name lag r i x :
  db r !! recordKey name key = Some (Entry i (Some x)) →
  live r (blockKey name key) = None →
  1 ≤ i →
  now r + Z.of_nat (sum_list lag) < x →
  ∃ o r' lag',
    exec (increment key W limit bd name) lag r = (o, r', lag')
    ∧ now r' + Z.of_nat (sum_list lag') < x
    ∧ db r' !! recordKey name key = Some (Entry (i + 1) (Some x))
    ∧ (i + 1 ≤ limit →
       live r' (blockKey name key) = None ∧
       ∃ rec, o = Fulfilled rec ∧ isBlocked rec = false ∧ totalHits rec = i + 1)
    ∧ (limit < i + 1 → 0 < bd →
       TTL (blockKey name key) r' = bd ∧
       ∃ rec, o = Fulfilled rec ∧ isBlocked rec = true
              ∧ timeToBlockExpire rec = bd).
Proof.
  intros Hrk Hbk Hi Hx.
  unfold increment. cbn.
  rewrite (TTL_None _ _ (live_advance_None _ _ _ Hbk)). cbn.
  pose proof (lag_budget lag) as B1.
  pose proof (lag_budget (tail lag)) as B2.
  pose proof (lag_budget (tail (tail lag))) as B3.
  pose proof (lag_budget (tail (tail (tail lag)))) as B4.
  set (rk := recordKey name key) in *. set (bk := blockKey name key) in *.
  assert (rk ≠ bk) as Hne by apply record_block_keys_differ.
  assert (live (advance (hd 0%nat (tail lag)) (advance (hd 0%nat lag) r)) rk
          = Some (Entry i (Some x))) as Hlive.
  { apply live_deadline; [exact Hrk|]. cbn. lia. }
  rewrite (INCR_live _ _ _ Hlive). cbn.
  assert ((i + 1 =? 1) = false) as Hone by (apply Z.eqb_neq; lia).
  rewrite Hone. cbn.
  destruct (limit <? i + 1) eqn:Hlim; cbn.
  - destruct (Z_le_gt_dec bd 0) as [Hbd|Hbd].
    + rewrite SET_EX_refused by done. eexists _, _, _. split; [reflexivity|].
      cbn. rewrite lookup_insert_eq.
      split; [lia|]. split; [done|]. apply Z.ltb_lt in Hlim.
      split; intros; lia.
    + rewrite SET_EX_ok by lia. cbn. eexists _, _, _. split; [reflexivity|].
      cbn. rewrite lookup_insert_ne by done. rewrite lookup_insert_eq.
      split; [lia|]. split; [done|]. apply Z.ltb_lt in Hlim.
      split; [intros; lia|]. intros _ Hpos. split; [|eauto].
      apply TTL_fresh_deadline. lia.
  - eexists _, _, _. split; [reflexivity|]. cbn. rewrite lookup_insert_eq.
    split; [lia|]. split; [done|]. apply Z.ltb_ge in Hlim.
    split; [|intros; lia]. intros _. split; [|eauto].
    unfold live. cbn. rewrite lookup_insert_ne by done.
    pose proof (live_advance_None
      (hd 0 lag + hd 0 (tail lag) + hd 0 (tail (tail lag)))%nat _ _ Hbk) as Hb.
    unfold live in Hb. cbn in Hb.
    replace (now r + Z.of_nat (hd 0%nat lag) + Z.of_nat (hd 0%nat (tail lag))
             + Z.of_nat (hd 0%nat (tail (tail lag))))
      with (now r + Z.of_nat (hd 0 lag + hd 0 (tail lag)
                              + hd 0 (tail (tail lag)))%nat) by lia.
    exact Hb.
Qed.

Lemma EXPIRE_live r k e s :
  live r k = Some e → 0 < s →
  EXPIRE k s r = (1, Mk (<[k := Entry (value e) (Some (now r + s))]> (db r)) (now r)).
Proof.
  intros Hl Hs. unfold EXPIRE. rewrite Hl.
  assert ((s <=? 0) = false) as Hle by (apply Z.leb_gt; lia).
  by rewrite Hle.
Qed.

Lemma live_insert_eq m t k v d :
  live (Mk (<[k := Entry v d]> m) t) k
  = if expired t (Entry v d) then None else Some (Entry v d).
Proof. unfold live. cbn. by rewrite lookup_insert_eq. Qed.

Lemma exec_increment_first key W limit bd name lag r :
  live r (recordKey name key) = None →
  live r (blockKey name key) = None →
  Z.of_nat (sum_list lag) < W →
  ∃ o r' lag' x,
    exec (increment key W limit bd name) lag r = (o, r', lag')
    ∧ now r' + Z.of_nat (sum_list lag') < x
    ∧ db r' !! recordKey name key = Some (Entry 1 (Some x))
    ∧ (1 ≤ limit →
       live r' (blockKey name key) = None ∧
       ∃ rec, o = Fulfilled rec ∧ isBlocked rec = false ∧ totalHits rec = 1)
    ∧ (limit < 1 → 0 < bd →
       TTL (blockKey name key) r' = bd ∧
       ∃ rec, o = Fulfilled rec ∧ isBlocked rec = true
              ∧ timeToBlockExpire rec = bd).
Proof.
  intros Hrk Hbk Hx.
  unfold increment. cbn.
  rewrite (TTL_None _ _ (live_advance_None _ _ _ Hbk)). cbn.
  pose proof (lag_budget lag) as B1.
  pose proof (lag_budget (tail lag)) as B2.
  pose proof (lag_budget (tail (tail lag))) as B3.
  pose proof (lag_budget (tail (tail (tail lag)))) as B4.
  pose proof (lag_budget (tail (tail (tail (tail lag))))) as B5.
  set (rk := recordKey name key) in *. set (bk := blockKey name key) in *.
  assert (rk ≠ bk) as Hne by apply record_block_keys_differ.
  rewrite INCR_fresh by (by do 2 apply live_advance_None). cbn.
  rewrite (EXPIRE_live _ _ (Entry 1 None));
    [|unfold advance; cbn; by rewrite live_insert_eq|lia].
  cbn. rewrite insert_insert_eq.
  destruct (limit <? 1) eqn:Hlim; cbn.
  - destruct (Z_le_gt_dec bd 0) as [Hbd|Hbd].
    + rewrite SET_EX_refused by done. eexists _, _, _, _. split; [reflexivity|].
      cbn. rewrite lookup_insert_eq.
      split; [|split; [reflexivity|]]; [lia|].
      apply Z.ltb_lt in Hlim. split; intros; lia.
    + rewrite SET_EX_ok by lia. cbn. eexists _, _, _, _. split; [reflexivity|].
      cbn. rewrite lookup_insert_ne by done. rewrite lookup_insert_eq.
      split; [|split; [reflexivity|]]; [lia|]. apply Z.ltb_lt in Hlim.
      split; [intros; lia|]. intros _ Hpos. split; [|eauto].
      apply TTL_fresh_deadline. lia.
  - eexists _, _, _, _. split; [reflexivity|]. cbn. rewrite lookup_insert_eq.
    split; [|split; [reflexivity|]]; [lia|]. apply Z.ltb_ge in Hlim.
    split; [|intros; lia]. intros _. split; [|eauto].
    unfold live. cbn. rewrite lookup_insert_ne by done.
    pose proof (live_advance_None
      (hd 0 lag + hd 0 (tail lag) + hd 0 (tail (tail lag))
       + hd 0 (tail (tail (tail lag))))%nat _ _ Hbk) as Hb.
    unfold live in Hb. cbn in Hb.
    replace (now r + Z.of_nat (hd 0%nat lag) + Z.of_nat (hd 0%nat (tail lag))
             + Z.of_nat (hd 0%nat (tail (tail lag)))
             + Z.of_nat (hd 0%nat (tail (tail (tail lag)))))
      with (now r + Z.of_nat (hd 0 lag + hd 0 (tail lag)
                              + hd 0 (tail (tail lag))
                              + hd 0 (tail (tail (tail lag))))%nat) by lia.
    exact Hb.
Qed.


(** A block set to end at [x] answers every call whose first command
    reaches the server before [x], whatever has become of the counter. *)
Lemma blocked_until_the_deadline key ttl limit bd name lag r v x :
  db r !! blockKey name key = Some (Entry v (Some x)) →
  now r + Z.of_nat (hd 0%nat lag) < x →
  exec (increment key ttl limit bd name) lag r =
  (Fulfilled
     {| totalHits := limit; timeToExpire := 0; blockDuration := bd;
        key := key; limit := limit; isBlocked := true;
        timeToBlockExpire := x - (now r + Z.of_nat (hd 0%nat lag)) |},
   advance (hd 0%nat lag) r, tl lag).
Proof.
  intros Hbk Hx.
  assert (TTL (blockKey name key) (advance (hd 0%nat lag) r)
          = x - (now r + Z.of_nat (hd 0%nat lag))) as Httl.
  { unfold TTL. by rewrite (live_deadline _ _ v x). }
  rewrite exec_increment_blocked; rewrite Httl; [reflexivity|lia].
Qed.

(** Without a positive block duration the call that exceeds the limit is
    rejected by the server's reply to SET. *)
Lemma over_limit_without_block_duration key W limit bd name lag r i x :
  db r !! recordKey name key = Some (Entry i (Some x)) →
  live r (blockKey name key) = None →
  now r + Z.of_nat (sum_list lag) < x →
  limit ≤ i → bd ≤ 0 →
  ∃ r' lag',
    exec (increment key W limit bd name) lag r
    = (Rejected "ERR invalid expire time in 'set' command", r', lag').
Proof.
  intros Hrk Hbk Hx Hlim Hbd.
  unfold increment. cbn.
  rewrite (TTL_None _ _ (live_advance_None _ _ _ Hbk)). cbn.
  pose proof (lag_budget lag) as B1.
  pose proof (lag_budget (tail lag)) as B2.
  assert (live (advance (hd 0%nat (tail lag)) (advance (hd 0%nat lag) r))
            (recordKey name key) = Some (Entry i (Some x))) as Hlive.
  { apply live_deadline; [exact Hrk|]. cbn. lia. }
  rewrite (INCR_live _ _ _ Hlive). cbn.
  destruct (i + 1 =? 1); cbn.
  - destruct (EXPIRE _ _ _) as [z r2]. cbn.
    assert ((limit <? i + 1) = true) as Hover by (apply Z.ltb_lt; lia).
    rewrite Hover. cbn. rewrite SET_EX_refused by done. by eexists _, _.
  - assert ((limit <? i + 1) = true) as Hover by (apply Z.ltb_lt; lia).
    rewrite Hover. cbn. rewrite SET_EX_refused by done. by eexists _, _.
Qed.

Lemma calls_S n key W limit bd name lag r :
  calls (S n) key W limit bd name lag r =
  let '(o, r1, lag1) := exec (increment key W limit bd name) lag r in
  let '(os, r2, lag2) := calls n key W limit bd name lag1 r1 in
  (o :: os, r2, lag2).
Proof. reflexivity. Qed.

Lemma calls_then_block key W limit bd name (n : nat) :
  ∀ lag r i x,
    db r !! recordKey name key = Some (Entry i (Some x)) →
    live r (blockKey name key) = None →
    1 ≤ i →
    now r + Z.of_nat (sum_list lag) < x →
    limit = i + Z.of_nat n →
    0 < bd →
    ∃ recs r' lag',
      calls (S n) key W limit bd name lag r = (Fulfilled <$> recs, r', lag')
      ∧ length recs = S n
      ∧ (∀ j rec, (j < n)%nat → recs !! j = Some rec →
           isBlocked rec = false ∧ totalHits rec = i + Z.of_nat j + 1)
      ∧ (∃ rec, recs !! n = Some rec ∧ isBlocked rec = true
                ∧ timeToBlockExpire rec = bd)
      ∧ TTL (blockKey name key) r' = bd.
Proof.
  induction n as [|n IH]; intros lag r i x Hrk Hbk Hi Hx Hlim Hbd.
  - destruct (exec_increment_counting key W limit bd name lag r i x Hrk Hbk Hi Hx)
      as (o & r' & lag' & Hexec & _ & _ & _ & Hblock).
    destruct Hblock as [Httl (rec & -> & Hb & Ht)]; [lia|done|].
    exists [rec], r', lag'. rewrite calls_S, Hexec. cbn.
    split; [done|]. split; [done|]. split; [intros; lia|].
    split; [by exists rec|done].
  - destruct (exec_increment_counting key W limit bd name lag r i x Hrk Hbk Hi Hx)
      as (o & r1 & lag1 & Hexec & Hx1 & Hrk1 & Hpass & _).
    destruct Hpass as [Hbk1 (rec & -> & Hb & Ht)]; [lia|].
    destruct (IH lag1 r1 (i + 1) x Hrk1 Hbk1) as
      (recs & r' & lag' & Hcalls & Hlen & Hfirst & Hlast & Httl); [lia..|done|].
    exists (rec :: recs), r', lag'.
    rewrite calls_S, Hexec, Hcalls.
    split; [done|]. split; [cbn; lia|]. split; [|split; [|done]].
    + intros [|j] rec' Hj Hrec'; cbn in Hrec'.
      * injection Hrec' as <-. split; [done|lia].
      * destruct (Hfirst j rec') as [? ?]; [lia|done|]. split; [done|lia].
    + exact Hlast.
Qed.

(** C4. From a store that holds neither record of the key, [N + 1] calls in
    a row with limit [N] and window [W], the whole run taking less than [W]
    (and the block duration being a positive number of seconds): the first
    [N] come back unblocked and the [j]-th of them counts [j] hits; the last
    one comes back blocked with a positive time to the end of the block, and
    leaves a block record whose time to live is the block duration. *)
Theorem first_N_calls_pass_then_block (N : nat) key W bd name lag r :
  live r (recordKey name key) = None →
  live r (blockKey name key) = None →
  0 < bd →
  Z.of_nat (sum_list lag) < W →
  ∃ recs r' lag',
    calls (S N) key W (Z.of_nat N) bd name lag r = (Fulfilled <$> recs, r', lag')
    ∧ length recs = S N
    ∧ (∀ j rec, (j < N)%nat → recs !! j = Some rec →
         isBlocked rec = false ∧ totalHits rec = Z.of_nat (S j))
    ∧ (∃ rec, recs !! N = Some rec ∧ isBlocked rec = true
              ∧ 0 < timeToBlockExpire rec)
    ∧ TTL (blockKey name key) r' = bd.
Proof.
  intros Hrk Hbk Hbd Hlag.
  destruct (exec_increment_first key W (Z.of_nat N) bd name lag r Hrk Hbk Hlag)
    as (o & r1 & lag1 & x & Hexec & Hx1 & Hrk1 & Hpass & Hblock).
  destruct N as [|N].
  - destruct Hblock as [Httl (rec & -> & Hb & Ht)]; [lia|done|].
    exists [rec], r1, lag1. rewrite calls_S, Hexec. cbn.
    split; [done|]. split; [done|]. split; [intros; lia|].
    split; [|done]. exists rec. split; [done|]. split; [done|lia].
  - destruct Hpass as [Hbk1 (rec & -> & Hb & Ht)]; [lia|].
    destruct (calls_then_block key W (Z.of_nat (S N)) bd name N lag1 r1 1 x)
      as (recs & r' & lag' & Hcalls & Hlen & Hfirst & Hlast & Httl);
      [done|done|lia|done|lia|done|].
    exists (rec :: recs), r', lag'.
    rewrite calls_S, Hexec, Hcalls.
    split; [done|]. split; [cbn; lia|]. split; [|split; [|done]].
    + intros [|j] rec' Hj Hrec'; cbn in Hrec'.
      * injection Hrec' as <-. split; [done|lia].
      * destruct (Hfirst j rec') as [? ?]; [lia|done|]. split; [done|lia].
    + destruct Hlast as (rec' & ? & ? & ?). exists rec'.
      split; [done|]. split; [done|lia].
Qed.

End ThrottlerWindow.

Lemma first_N_calls_pass_then_block_witness :
  ∃ recs r' lag',
    Throttler.calls 4 "ip" 60 3 30 "default" [0; 1; 2; 3; 4; 5]%nat (Redis.Mk ∅ 0)
      = (Redis.Fulfilled <$> recs, r', lag')
    ∧ length recs = 4%nat
    ∧ (∀ j rec, (j < 3)%nat → recs !! j = Some rec →
         Throttler.isBlocked rec = false ∧ Throttler.totalHits rec = Z.of_nat (S j))
    ∧ (∃ rec, recs !! 3%nat = Some rec ∧ Throttler.isBlocked rec = true
              ∧ 0 < Throttler.timeToBlockExpire rec)
    ∧ Redis.TTL (Throttler.blockKey "default" "ip") r' = 30.
Proof.
  apply (first_N_calls_pass_then_block 3 "ip" 60 30 "default"
           [0; 1; 2; 3; 4; 5]%nat (Redis.Mk ∅ 0)).
  - reflexivity.
  - reflexivity.
  - lia.
  - cbn. lia.
Defined.


Lemma increment_while_blocked_is_sticky_witness :
  ∃ rec r' lag',
    Redis.exec (Throttler.increment "ip" 60 3 30 "default") [2%nat] Scenario.blocked_store
      = (Redis.Fulfilled rec, r', lag')
    ∧ Throttler.isBlocked rec = true
    ∧ Throttler.timeToBlockExpire rec
      = Redis.TTL (Throttler.blockKey "default" "ip")
          (Redis.advance (hd 0%nat [2%nat]) Scenario.blocked_store)
    ∧ Redis.db r' = Redis.db Scenario.blocked_store
    ∧ Redis.db r' !! Throttler.recordKey "default" "ip"
      = Redis.db Scenario.blocked_store !! Throttler.recordKey "default" "ip".
Proof.
  apply (increment_while_blocked_is_sticky "ip" 60 3 30 "default" [2%nat]
           Scenario.blocked_store).
  vm_compute. reflexivity.
Defined.

Lemma increment_while_blocked_reports_limit_witness :
  ∃ rec r' lag',
    Redis.exec (Throttler.increment "ip" 60 3 30 "default") [] Scenario.blocked_store
      = (Redis.Fulfilled rec, r', lag')
    ∧ Throttler.isBlocked rec = true
    ∧ Throttler.totalHits rec = 3
    ∧ Throttler.timeToExpire rec = 0.
Proof.
  apply (increment_while_blocked_reports_limit "ip" 60 3 30 "default" []
           Scenario.blocked_store).
  vm_compute. reflexivity.
Defined.

(** ** The response envelope *)

Section EnvelopeProperties.
Import Js Envelope.

Lemma envelope_has_success (b : value) :
  is_undefined (get (envelope b) "success") = false.
Proof.
  unfold envelope.
  destruct (is_undefined (get b "success")) eqn:Hs; cbn; [|exact Hs].
  destruct (truthy (get b "meta")); reflexivity.
Qed.

Lemma envelope_passes_shaped (b : value) :
  is_undefined (get b "success") = false → envelope b = b.
Proof. intros Hs. unfold envelope. by rewrite Hs. Qed.

(** C7. A body that has a [success] property goes through untouched; a body
    without one whose [meta] is truthy (it carries pagination data) comes out
    as a success envelope with that very [meta]; any other body [b] comes
    out as [{success: true, data: b, message: "Request successful",
    meta: {}}]; and the normalizer applied twice is the normalizer applied
    once. *)
Theorem envelope_normalizes (b : value) :
  (is_undefined (get b "success") = false → envelope b = b)
  ∧ (is_undefined (get b "success") = true → truthy (get b "meta") = true →
       get (envelope b) "success" = VBool true
       ∧ get (envelope b) "meta" = get b "meta")
  ∧ (is_undefined (get b "success") = true → truthy (get b "meta") = false →
       envelope b =
       VObj [("success", VBool true); ("data", b);
             ("message", VStr "Request successful"); ("meta", VObj [])])
  ∧ envelope (envelope b) = envelope b.
Proof.
  split; [apply envelope_passes_shaped|].
  split; [|split].
  - intros Hs Hm. unfold envelope. by rewrite Hs, Hm.
  - intros Hs Hm. unfold envelope. by rewrite Hs, Hm.
  - apply envelope_passes_shaped, envelope_has_success.
Qed.

(** C8. When nothing has been sent yet, the filter writes exactly one body,
    [{success: false, error, message, data: {}, meta: {}}] with the same
    text under [error] and [message], under the status of the exception if
    it is an [HttpException] and under 500 otherwise; when the headers have
    been sent, the response is left as it is. *)
Theorem catch_maps_every_failure (e : exception) (res : Response) :
  (headersSent res = false →
     ∃ m,
       written (catch e res) =
         VObj [("success", VBool false); ("error", m); ("message", m);
               ("data", VObj []); ("meta", VObj [])] :: written res
       ∧ statusCode (catch e res) =
           match e with
           | HttpException status _ _ => status
           | Thrown _ => 500
           end
       ∧ headersSent (catch e res) = true)
  ∧ (headersSent res = true → catch e res = res).
Proof.
  split; intros Hsent; unfold catch; rewrite Hsent; [|reflexivity].
  exists (getMessage e). cbn. by destruct e.
Qed.

End EnvelopeProperties.

(** ** The request pipeline *)

Section GatewayProperties.
Import Js Gateway Scenario.
Variable E : Env.

Lemma authenticate_without_claims req :
  (∀ token, extractTokenFromRequest req = Some token →
            truthy_str token = true → validateToken E token = None) →
  (authenticate E req).2 = None.
Proof.
  intros Hno. unfold authenticate.
  destruct (extractTokenFromRequest req) as [token|] eqn:Htok; [|done].
  destruct (truthy_str token) eqn:Ht; [|done].
  cbn. by rewrite (Hno token eq_refl Ht).
Qed.

Lemma middleware_unfold rt req rng :
  middleware E rt req rng =
  let '(acted, rng') :=
    proxy E {| inbound := req; user := (authenticate E req).2 |}
      (target rt) (path rt) (requireAuth rt req)
      {| extraHeaders := routeHeaders rt |} rng in
  (((authenticate E req).1 ++ acted)%list, rng').
Proof. unfold middleware. by destruct (authenticate E req). Qed.

Lemma authenticate_only_validates req :
  Forall (λ ev, is_validate ev = true) (authenticate E req).1.
Proof.
  unfold authenticate.
  destruct (extractTokenFromRequest req) as [token|]; [|constructor].
  destruct (truthy_str token); repeat constructor.
Qed.

(** What the notifications route does with a request under its prefix,
    whoever sends it: it calls the orchestrator. *)
Lemma notifications_route_always_forwards req rng :
  startsWith (original_or_url req) "/notifications" = true →
  ∃ hdrs rng',
    middleware E (notificationsRoute E) req rng =
    (((authenticate E req).1
      ++ [Proxy (orchestratorUrl E) (original_or_url req) hdrs])%list, rng').
Proof.
  intros Hpre. rewrite middleware_unfold. unfold proxy. cbn.
  rewrite Hpre. cbn.
  destruct (proxyReqOptDecorator _ _ _ _ _) as [hdrs rng'].
  by exists hdrs, rng'.
Qed.

(** C1, at the input where the code departs from it: a POST to
    /notifications/send without any header is not answered 401, it is
    handed to the orchestrator. *)
Lemma notifications_without_token_is_forwarded :
  ∃ hdrs,
    middleware demo (notificationsRoute demo)
      (request "POST" "/notifications/send" "/send" []) 0
    = ([Proxy "http://orchestrator:3002" "/notifications/send" hdrs], 2%nat).
Proof. eexists. vm_compute. reflexivity. Qed.

(** C2. A request under the prefix of a route whose [requireAuth] holds, and
    for which no token yields claims, is answered 401 with the body
    [{success: false, message: "Unauthorized"}]; apart from the validation
    attempt nothing else happens, in particular no outbound call. *)
Theorem protected_route_rejects_without_identity rt req rng :
  startsWith (original_or_url req) (path rt) = true →
  requireAuth rt req = true →
  (∀ token, extractTokenFromRequest req = Some token →
            truthy_str token = true → validateToken E token = None) →
  middleware E rt req rng =
    (((authenticate E req).1 ++ [Reply 401 unauthorized])%list, rng)
  ∧ forwarded (middleware E rt req rng).1 = None
  ∧ Forall (λ ev, is_proxy ev = false) (middleware E rt req rng).1.
Proof.
  intros Hpre Hauth Hno.
  assert (middleware E rt req rng =
          (((authenticate E req).1 ++ [Reply 401 unauthorized])%list, rng)) as Heq.
  { rewrite middleware_unfold. unfold proxy. cbn.
    rewrite Hpre, Hauth, (authenticate_without_claims req Hno). reflexivity. }
  rewrite Heq. split; [reflexivity|]. cbn.
  pose proof (authenticate_only_validates req) as Hval. clear Heq.
  induction Hval as [|ev evs Hev _ IH]; cbn.
  - split; [reflexivity|]. by repeat constructor.
  - destruct ev; try discriminate. destruct IH as [IH1 IH2].
    split; [exact IH1|]. by constructor.
Qed.

Lemma proxy_never_validates req t p a o rng :
  Forall (λ ev, is_validate ev = false) (proxy E req t p a o rng).1.
Proof.
  unfold proxy.
  destruct (negb (startsWith _ _)); [by repeat constructor|].
  destruct (a && _); [by repeat constructor|].
  destruct (proxyReqOptDecorator _ _ _ _ _). by repeat constructor.
Qed.

Lemma truthy_str_nonempty s : s ≠ "" → truthy_str s = true.
Proof. by destruct s. Qed.

(** Without the header [x-user-id] to add and without a header strategy,
    the decorator does not look at the identity. *)
Lemma decorator_ignores_identity prepared req u rng :
  proxyReqOptDecorator false {| extraHeaders := None |} prepared
    {| inbound := req; user := u |} rng
  = proxyReqOptDecorator false {| extraHeaders := None |} prepared
      {| inbound := req; user := None |} rng.
Proof. unfold proxyReqOptDecorator, add_user_id. cbn. by destruct u. Qed.

(** C6, as amended. Take a request on the public allow-list, whatever its
    method. If no non-empty token can be extracted from it, [validateToken]
    is never called while it is handled; under the prefix /user the one
    thing that happens is the call to the user service. If a non-empty
    token can be extracted, that token is validated, once and before
    anything else, and the request is then forwarded to the user service
    with the path and the headers it would have had without an identity:
    what the validation answers changes neither. *)
Theorem public_path_validates_only_a_token req rng :
  isPublic req = true →
  let out :=
    proxyReqOptDecorator false {| extraHeaders := None |} (proxyReqOpts E req)
      {| inbound := req; user := None |} rng in
  ((∀ token, extractTokenFromRequest req = Some token → token = "") →
   Forall (λ ev, is_validate ev = false) (middleware E (userRoute E) req rng).1
   ∧ (startsWith (original_or_url req) "/user" = true →
      middleware E (userRoute E) req rng =
      ([Proxy (userServiceUrl E) (original_or_url req) out.1], out.2)))
  ∧ (∀ token, extractTokenFromRequest req = Some token → token ≠ "" →
     startsWith (original_or_url req) "/user" = true →
     middleware E (userRoute E) req rng =
     ([Validate token; Proxy (userServiceUrl E) (original_or_url req) out.1],
      out.2)).
Proof.
  intros Hpub out.
  assert (startsWith (original_or_url req) "/user" = true →
          middleware E (userRoute E) req rng =
          (((authenticate E req).1
            ++ [Proxy (userServiceUrl E) (original_or_url req) out.1])%list,
           out.2)) as Hfwd.
  { intros Hpre. rewrite middleware_unfold. unfold proxy, userRoute.
    cbn [target path requireAuth routeHeaders inbound user].
    rewrite Hpre, Hpub. cbn [negb andb].
    rewrite decorator_ignores_identity. fold out. by destruct out. }
  split.
  - intros Hnone.
    assert ((authenticate E req).1 = []) as Hquiet.
    { unfold authenticate.
      destruct (extractTokenFromRequest req) as [token|] eqn:Htok; [|done].
      by rewrite (Hnone token eq_refl). }
    split.
    + rewrite middleware_unfold.
      pose proof (proxy_never_validates
        {| inbound := req; user := (authenticate E req).2 |}
        (target (userRoute E)) (path (userRoute E))
        (requireAuth (userRoute E) req)
        {| extraHeaders := routeHeaders (userRoute E) |} rng) as Hproxy.
      destruct (proxy _ _ _ _ _ _ _) as [acted rng']. cbn in *.
      by rewrite Hquiet.
    + intros Hpre. by rewrite (Hfwd Hpre), Hquiet.
  - intros token Htok Hne Hpre. rewrite (Hfwd Hpre).
    unfold authenticate. by rewrite Htok, (truthy_str_nonempty token Hne).
Qed.

Lemma resolveHeaderValue_non_blank h v :
  resolveHeaderValue h = Some v → non_blank v = true.
Proof.
  destruct h as [[s|items]|]; cbn; [| |done].
  - destruct (non_blank s) eqn:Hs; [|done]. by intros [= <-].
  - intros Hfind. by apply find_some in Hfind as [_ ?].
Qed.

Lemma set_extra_lookup extra h k v :
  extra !! k = Some v → non_blank v = true →
  set_extra (Some extra) h !! k = Some v.
Proof.
  intros Hk Hv. unfold set_extra. apply lookup_union_Some_l.
  by apply map_lookup_filter_Some.
Qed.

(** The two headers of the notifications route as the upstream gets them. *)
Lemma notification_headers_forwarded req rng :
  startsWith (original_or_url req) "/notifications" = true →
  (∀ n, non_blank (uuidv4 E n) = true) →
  let idem := existing_or_uuid E
    (resolveHeaderValue (headers req !! "x-idempotency-key")) rng in
  let corr := existing_or_uuid E
    (resolveHeaderValue (headers req !! "x-correlation-id")) idem.2 in
  ∃ hdrs,
    (middleware E (notificationsRoute E) req rng).2 = corr.2
    ∧ forwarded (middleware E (notificationsRoute E) req rng).1 = Some hdrs
    ∧ hdrs !! "X-Idempotency-Key" = Some idem.1
    ∧ hdrs !! "X-Correlation-ID" = Some corr.1.
Proof.
  intros Hpre Huuid idem corr.
  assert (non_blank idem.1 = true) as Hidem.
  { unfold idem, existing_or_uuid.
    destruct (resolveHeaderValue _) eqn:Hr; cbn; [|apply Huuid].
    by apply resolveHeaderValue_non_blank in Hr. }
  assert (non_blank corr.1 = true) as Hcorr.
  { unfold corr, existing_or_uuid.
    destruct (resolveHeaderValue (headers req !! "x-correlation-id")) eqn:Hr;
      cbn; [|apply Huuid].
    by apply resolveHeaderValue_non_blank in Hr. }
  rewrite middleware_unfold. unfold proxy. cbn. rewrite Hpre. cbn.
  unfold proxyReqOptDecorator, run_extra, notificationHeaders. cbn.
  fold idem. destruct idem as [i r1]. cbn in *.
  fold corr. destruct corr as [c r2]. cbn in *.
  eexists. split; [reflexivity|].
  pose proof (authenticate_only_validates req) as Hval.
  split.
  - induction Hval as [|ev evs Hev _ IH]; cbn; [reflexivity|].
    destruct ev; try discriminate. exact IH.
  - split; apply set_extra_lookup; done.
Qed.

(** C9, as amended. On the notifications route the upstream gets, under
    X-Idempotency-Key and under X-Correlation-ID, the inbound value of that
    header whenever it is a non-blank string (non-empty once trimmed), and
    an identifier drawn from the generator during this request whenever the
    inbound request has no such header or only blank values; two requests
    without an idempotency key, handled one after the other by a generator
    that never repeats itself, are forwarded with different keys. *)
Theorem notification_headers_fill_gaps req rng :
  startsWith (original_or_url req) "/notifications" = true →
  (∀ n, non_blank (uuidv4 E n) = true) →
  let rng' := (middleware E (notificationsRoute E) req rng).2 in
  ∃ hdrs,
    forwarded (middleware E (notificationsRoute E) req rng).1 = Some hdrs
    ∧ (∀ v, headers req !! "x-idempotency-key" = Some (HStr v) →
            non_blank v = true → hdrs !! "X-Idempotency-Key" = Some v)
    ∧ (∀ v, headers req !! "x-correlation-id" = Some (HStr v) →
            non_blank v = true → hdrs !! "X-Correlation-ID" = Some v)
    ∧ (resolveHeaderValue (headers req !! "x-idempotency-key") = None →
         hdrs !! "X-Idempotency-Key" = Some (uuidv4 E rng) ∧ (rng < rng')%nat)
    ∧ (resolveHeaderValue (headers req !! "x-correlation-id") = None →
         ∃ n, (rng ≤ n < rng')%nat
              ∧ hdrs !! "X-Correlation-ID" = Some (uuidv4 E n))
    ∧ (∀ req2 later hdrs2,
         Inj (=) (=) (uuidv4 E) →
         startsWith (original_or_url req2) "/notifications" = true →
         resolveHeaderValue (headers req !! "x-idempotency-key") = None →
         resolveHeaderValue (headers req2 !! "x-idempotency-key") = None →
         (rng' ≤ later)%nat →
         forwarded (middleware E (notificationsRoute E) req2 later).1
           = Some hdrs2 →
         hdrs !! "X-Idempotency-Key" ≠ hdrs2 !! "X-Idempotency-Key").
Proof.
  intros Hpre Huuid rng'.
  destruct (notification_headers_forwarded req rng Hpre Huuid)
    as (hdrs & Hrng & Hfwd & Hidem & Hcorr).
  fold rng' in Hrng. exists hdrs. split; [exact Hfwd|].
  unfold existing_or_uuid in *.
  split; [|split; [|split; [|split]]].
  - intros v Hv Hnb. rewrite Hidem, Hv. cbn. by rewrite Hnb.
  - intros v Hv Hnb. rewrite Hcorr, Hv. cbn. rewrite Hnb.
    by destruct (resolveHeaderValue _).
  - intros Hnone. rewrite Hnone in *. cbn in *. split; [exact Hidem|].
    rewrite Hrng. destruct (resolveHeaderValue _); cbn; lia.
  - intros Hnone. rewrite Hnone in *.
    destruct (resolveHeaderValue (headers req !! "x-idempotency-key"));
      cbn in *; eexists; (split; [|exact Hcorr]); lia.
  - intros req2 later hdrs2 Hinj Hpre2 Hnone Hnone2 Hlater Hfwd2.
    destruct (notification_headers_forwarded req2 later Hpre2 Huuid)
      as (hdrs2' & _ & Hfwd2' & Hidem2 & _).
    rewrite Hfwd2 in Hfwd2'. injection Hfwd2' as <-.
    rewrite Hnone in *. rewrite Hnone2 in *. cbn in *.
    rewrite Hidem, Hidem2. intros [= Heq]. apply Hinj in Heq.
    assert (rng < rng')%nat; [|lia].
    rewrite Hrng. destruct (resolveHeaderValue _); cbn; lia.
Qed.

End GatewayProperties.

(** C6 fails as it is stated: POST /user/signin is on the allow-list, and
    when it comes with a token the token is validated all the same. *)
Lemma public_path_with_token_is_validated :
  ¬ (∀ (E : Gateway.Env) (req : Gateway.Request) (rng : nat),
       Gateway.isPublic req = true →
       Forall (λ ev, Scenario.is_validate ev = false)
         (Gateway.middleware E (Gateway.userRoute E) req rng).1).
Proof.
  intros H.
  specialize (H Scenario.demo
    (Scenario.request "POST" "/user/signin" "/signin"
       [("authorization", Gateway.HStr "Bearer abc")]) 0%nat).
  assert (Gateway.isPublic
            (Scenario.request "POST" "/user/signin" "/signin"
               [("authorization", Gateway.HStr "Bearer abc")]) = true) as Hpub
    by (vm_compute; reflexivity).
  specialize (H Hpub). apply Forall_inv in H. vm_compute in H. discriminate.
Qed.

Lemma public_path_validates_only_a_token_witness :
  let out :=
    Gateway.proxyReqOptDecorator false {| Gateway.extraHeaders := None |}
      (Gateway.proxyReqOpts Scenario.demo Scenario.signin_with_token)
      {| Gateway.inbound := Scenario.signin_with_token;
         Gateway.user := None |} 0%nat in
  ((∀ token,
      Gateway.extractTokenFromRequest Scenario.signin_with_token = Some token →
      token = "") →
   Forall (λ ev, Scenario.is_validate ev = false)
     (Gateway.middleware Scenario.demo (Gateway.userRoute Scenario.demo)
        Scenario.signin_with_token 0%nat).1
   ∧ (Js.startsWith (Gateway.original_or_url Scenario.signin_with_token)
        "/user" = true →
      Gateway.middleware Scenario.demo (Gateway.userRoute Scenario.demo)
        Scenario.signin_with_token 0%nat =
      ([Gateway.Proxy (Gateway.userServiceUrl Scenario.demo)
          (Gateway.original_or_url Scenario.signin_with_token) out.1],
       out.2)))
  ∧ (∀ token,
       Gateway.extractTokenFromRequest Scenario.signin_with_token = Some token →
       token ≠ "" →
       Js.startsWith (Gateway.original_or_url Scenario.signin_with_token)
         "/user" = true →
       Gateway.middleware Scenario.demo (Gateway.userRoute Scenario.demo)
         Scenario.signin_with_token 0%nat =
       ([Gateway.Validate token;
         Gateway.Proxy (Gateway.userServiceUrl Scenario.demo)
           (Gateway.original_or_url Scenario.signin_with_token) out.1],
        out.2)).
Proof.
  apply (public_path_validates_only_a_token Scenario.demo
           Scenario.signin_with_token 0%nat).
  vm_compute. reflexivity.
Defined.

(** POST /user/signin with a token the verifier refuses, and with the one it
    accepts: the same call goes to the user service. *)
Example signin_is_forwarded_alike :
  (Gateway.middleware Scenario.demo (Gateway.userRoute Scenario.demo)
     Scenario.signin_with_token 0%nat).1
  = [Gateway.Validate "abc";
     Gateway.Proxy "http://user:3001" "/user/signin"
       {[ "Content-Type" := "application/json";
          "authorization" := "Bearer abc";
          "Authorization" := "Bearer abc" ]}]
  ∧ Scenario.forwarded
      (Gateway.middleware Scenario.demo (Gateway.userRoute Scenario.demo)
         (Scenario.request "POST" "/user/signin" "/signin"
            [("authorization", Gateway.HStr "Bearer good")]) 0%nat).1
    = Some {[ "Content-Type" := "application/json";
              "authorization" := "Bearer good";
              "Authorization" := "Bearer good" ]}.
Proof. split; vm_compute; reflexivity. Qed.

Lemma protected_route_rejects_without_identity_witness :
  Gateway.middleware Scenario.demo (Gateway.userRoute Scenario.demo)
    (Scenario.request "GET" "/user/42" "/42" []) 0%nat =
    (((Gateway.authenticate Scenario.demo
         (Scenario.request "GET" "/user/42" "/42" [])).1
      ++ [Gateway.Reply 401 Gateway.unauthorized])%list, 0%nat)
  ∧ Scenario.forwarded
      (Gateway.middleware Scenario.demo (Gateway.userRoute Scenario.demo)
         (Scenario.request "GET" "/user/42" "/42" []) 0%nat).1 = None
  ∧ Forall (λ ev, Scenario.is_proxy ev = false)
      (Gateway.middleware Scenario.demo (Gateway.userRoute Scenario.demo)
         (Scenario.request "GET" "/user/42" "/42" []) 0%nat).1.
Proof.
  apply (protected_route_rejects_without_identity Scenario.demo
           (Gateway.userRoute Scenario.demo)
           (Scenario.request "GET" "/user/42" "/42" []) 0%nat).
  - vm_compute. reflexivity.
  - vm_compute. reflexivity.
  - intros token Htok. vm_compute in Htok. discriminate.
Defined.

(** C9 fails as it is stated: a key made of one non-breaking space is not
    empty, and the upstream gets a generated key in its place. *)
Lemma blank_idempotency_key_is_replaced :
  ¬ (∀ (E : Gateway.Env) (req : Gateway.Request) (rng : nat) (v : string),
       Js.startsWith (Gateway.original_or_url req) "/notifications" = true →
       Gateway.headers req !! "x-idempotency-key" = Some (Gateway.HStr v) →
       v ≠ "" →
       ∃ hdrs,
         Scenario.forwarded
           (Gateway.middleware E (Gateway.notificationsRoute E) req rng).1
           = Some hdrs
         ∧ hdrs !! "X-Idempotency-Key" = Some v).
Proof.
  intros H.
  destruct (H Scenario.demo
    (Scenario.request "POST" "/notifications/send" "/send"
       [("x-idempotency-key", Gateway.HStr Scenario.nbsp)]) 0%nat Scenario.nbsp)
    as (hdrs & Hfwd & Hkey).
  - vm_compute. reflexivity.
  - vm_compute. reflexivity.
  - discriminate.
  - vm_compute in Hfwd. injection Hfwd as <-. vm_compute in Hkey. discriminate.
Qed.

(** ** The rate limiter under concurrent callers *)

Lemma omap_insert_same {A B} (f : A → option B) (l : list A) i t t' :
  l !! i = Some t → f t' = f t → omap f (<[i := t']> l) = omap f l.
Proof.
  revert i. induction l as [|a l IH]; intros [|i] Hi Hf; simpl in *; try done.
  - injection Hi as ->. by rewrite Hf.
  - specialize (IH i Hi Hf). unfold omap in IH. by rewrite IH.
Qed.

Lemma omap_insert_new {A B} (f : A → option B) (l : list A) i t t' x :
  l !! i = Some t → f t = None → f t' = Some x →
  omap f (<[i := t']> l) ≡ₚ x :: omap f l.
Proof.
  revert i. induction l as [|a l IH]; intros [|i] Hi Hn Hs; simpl in *; try done.
  - injection Hi as ->. by rewrite Hn, Hs.
  - specialize (IH i Hi Hn Hs). unfold omap in IH.
    destruct (f a); [|exact IH]. rewrite IH. apply Permutation_swap.
Qed.

Lemma NoDup_bounded_length (l : list Z) (hi : Z) :
  NoDup l → (∀ n, n ∈ l → 1 ≤ n ≤ hi) → (length l ≤ Z.to_nat hi)%nat.
Proof.
  intros Hnd Hin.
  assert (l ⊆+ seqZ 1 hi) as Hsub.
  { apply NoDup_submseteq; [done|]. intros n Hn. apply elem_of_seqZ.
    specialize (Hin n Hn). lia. }
  apply submseteq_length in Hsub. by rewrite length_seqZ in Hsub.
Qed.

Lemma NoDup_pairs_bounded (l : list (nat * Z)) (N : nat) (hi : Z) :
  NoDup l →
  (∀ w m, (w, m) ∈ l → (w ≤ N)%nat ∧ 1 ≤ m ≤ hi) →
  (length l ≤ S N * Z.to_nat hi)%nat.
Proof.
  intros Hnd Hin.
  assert (l ⊆+ list_prod (seq 0 (S N)) (seqZ 1 hi)) as Hsub.
  { apply NoDup_submseteq; [done|]. intros [w m] Hwm.
    destruct (Hin w m Hwm) as [Hw Hm].
    apply list_elem_of_In, in_prod; apply list_elem_of_In.
    - apply elem_of_seq. lia.
    - apply elem_of_seqZ. lia. }
  apply submseteq_length in Hsub.
  by rewrite length_prod, length_seq, length_seqZ in Hsub.
Qed.

Lemma omap_sub_NoDup {A B} (f g : A → option B) (l : list A) :
  (∀ t x, g t = Some x → f t = Some x) →
  NoDup (omap f l) → NoDup (omap g l).
Proof.
  intros Hsub. induction l as [|t l IH]; [constructor|]. simpl.
  destruct (g t) as [x|] eqn:Hg.
  - rewrite (Hsub _ _ Hg). intros [Hnotin Hnd]%NoDup_cons.
    apply NoDup_cons. split; [|by apply IH].
    intros (t' & Ht' & Hg')%list_elem_of_omap. apply Hnotin.
    apply list_elem_of_omap. exists t'. split; [done|]. by apply Hsub.
  - destruct (f t); [|exact IH]. intros [_ Hnd]%NoDup_cons. by apply IH.
Qed.

Lemma omap_NoDup_lookup {A B} (f : A → option B) (l : list A) i j t t' x :
  NoDup (omap f l) → l !! i = Some t → l !! j = Some t' →
  f t = Some x → f t' = Some x → i = j.
Proof.
  revert i j. induction l as [|a l IH]; intros i j Hnd Hi Hj Ht Ht'; [done|].
  simpl in Hnd.
  destruct i as [|i], j as [|j]; simpl in *.
  - done.
  - injection Hi as ->. rewrite Ht in Hnd. apply NoDup_cons in Hnd as [Hx _].
    exfalso. apply Hx, list_elem_of_omap. exists t'.
    split; [by eapply list_elem_of_lookup_2|done].
  - injection Hj as ->. rewrite Ht' in Hnd. apply NoDup_cons in Hnd as [Hx _].
    exfalso. apply Hx, list_elem_of_omap. exists t.
    split; [by eapply list_elem_of_lookup_2|done].
  - f_equal. apply IH; try done.
    destruct (f a); [by apply NoDup_cons in Hnd as [_ ?]|done].
Qed.

Section InterleavingProperties.
Import Redis Throttler Interleaving.
Variables (k : string) (W lim bd : Z) (nm : string).

Let rk := recordKey nm k.
Let bk := blockKey nm k.

Lemma increment_before : before rk lim (increment k W lim bd nm).
Proof.
  unfold increment. cbn. apply before_ttl. intros b.
  destruct (0 <? b); cbn; [by apply before_ret|].
  apply before_incr. intros n.
  assert (∀ te, after rk lim n
    (if lim <? n
     then SetEx (blockKey nm k) 1 bd (λ _,
            Ret {| totalHits := n; timeToExpire := te; blockDuration := bd;
                   key := k; limit := lim; isBlocked := true;
                   timeToBlockExpire := bd |})
     else Ret {| totalHits := n; timeToExpire := te; blockDuration := bd;
                 key := k; limit := lim; isBlocked := false;
                 timeToBlockExpire := 0 |})) as Htail.
  { intros te. destruct (lim <? n) eqn:Hlim.
    - apply after_set; [apply not_eq_sym, record_block_keys_differ|].
      intros _. by apply after_ret.
    - apply after_ret. intros _. split; [done|]. by apply Z.ltb_ge. }
  destruct (n =? 1); cbn.
  - apply after_expire. intros _. apply after_ttl. exact Htail.
  - apply after_ttl. exact Htail.
Qed.

Lemma live_advance_Some d r key e :
  live (advance d r) key = Some e → live r key = Some e.
Proof.
  unfold live, expired. cbn. destruct (db r !! key) as [e'|]; [|done].
  destruct (expire_at e') as [x|]; [|done].
  destruct (x <=? now r + Z.of_nat d) eqn:Hd; [done|]. intros [= <-].
  apply Z.leb_gt in Hd.
  assert ((x <=? now r) = false) as Hx by (apply Z.leb_gt; lia).
  by rewrite Hx.
Qed.

Lemma INCR_counter r n r' :
  INCR rk r = (n, r') →
  (∀ e, db r !! rk = Some e → 0 ≤ value e) →
  1 ≤ n
  ∧ (n ≠ 1 → ∃ e, live r rk = Some e ∧ n = value e + 1)
  ∧ (∀ e', db r' !! rk = Some e' → value e' = n).
Proof.
  unfold INCR. intros Hincr Hval.
  destruct (live r rk) as [e|] eqn:Hlive; injection Hincr as <- <-; cbn.
  - apply live_Some_inv in Hlive as Hdb. specialize (Hval e Hdb).
    split; [lia|]. split; [by exists e|].
    intros e'. rewrite lookup_insert_eq. by intros [= <-].
  - split; [lia|]. split; [done|].
    intros e'. rewrite lookup_insert_eq. by intros [= <-].
Qed.

Lemma EXPIRE_counter key s r z r' :
  EXPIRE key s r = (z, r') →
  ∀ e', db r' !! rk = Some e' →
    (live r' rk = Some e' → ∃ e, live r rk = Some e ∧ value e' = value e)
    ∧ ∃ e, db r !! rk = Some e ∧ value e' = value e.
Proof.
  unfold EXPIRE. intros Hexp e' He'.
  destruct (live r key) as [e|] eqn:Hlive.
  - destruct (s <=? 0) eqn:Hs; injection Hexp as <- <-; cbn in *.
    + destruct (decide (key = rk)) as [->|Hne].
      * by rewrite lookup_delete_eq in He'.
      * rewrite lookup_delete_ne in He' by done. split; [|by exists e'].
        unfold live. cbn. rewrite lookup_delete_ne by done. intros Hl.
        by exists e'.
    + destruct (decide (key = rk)) as [->|Hne].
      * rewrite lookup_insert_eq in He'. injection He' as <-. cbn.
        split; [by exists e|]. apply live_Some_inv in Hlive. by exists e.
      * rewrite lookup_insert_ne in He' by done. split; [|by exists e'].
        unfold live. cbn. rewrite lookup_insert_ne by done. intros Hl.
        by exists e'.
  - injection Hexp as <- <-. split; [|by exists e']. intros Hl. by exists e'.
Qed.

Lemma SET_EX_counter key v s r r' :
  SET_EX key v s r = Some r' → key ≠ rk →
  db r' !! rk = db r !! rk ∧ live r' rk = live r rk.
Proof.
  unfold SET_EX. intros Hset Hne. destruct (s <=? 0); [done|].
  injection Hset as <-. unfold live. cbn. by rewrite lookup_insert_ne.
Qed.

Lemma invariant_update c i t t' r' :
  invariant rk lim c →
  pool c !! i = Some t →
  seen t' = seen t →
  thread_ok rk lim t' →
  (∀ e', db r' !! rk = Some e' → 0 ≤ value e') →
  (∀ e', live r' rk = Some e' →
         ∃ e, live (server c) rk = Some e ∧ value e' = value e) →
  invariant rk lim
    {| server := r'; window := window c; pool := <[i := t']> (pool c) |}.
Proof.
  intros [Hth Hval Hnd Hbd] Hi Hseen Hok Hval' Hlive'.
  constructor; cbn.
  - by apply Forall_insert.
  - exact Hval'.
  - by rewrite (omap_insert_same seen _ i t t').
  - rewrite (omap_insert_same seen _ i t t') by done. intros w n Hin.
    destruct (Hbd w n Hin) as (Hw & Hn & Hle). split; [done|]. split; [done|].
    intros Heq e' He'. destruct (Hlive' e' He') as (e & He & ->). by apply Hle.
Qed.

Lemma step_preserves c c' :
  invariant rk lim c → step c c' → invariant rk lim c'.
Proof.
  intros Hinv Hstep. destruct Hstep as [d c|i t t' r' w' c Hi Hrun].
  - destruct Hinv as [Hth Hval Hnd Hbd]. constructor; cbn; try done.
    intros w n Hin. destruct (Hbd w n Hin) as (Hw & Hn & Hle).
    split; [done|]. split; [done|]. intros Heq e He.
    apply live_advance_Some in He. by apply Hle.
  - pose proof (inv_threads _ _ _ Hinv) as Hth.
    pose proof (proj1 (Forall_lookup _ _) Hth i t Hi) as Hok.
    unfold thread_ok in Hok. unfold run_cmd in Hrun.
    destruct (code t) as [p|err] eqn:Hcode; [|done].
    destruct p as [rec|key c0|key c0|key s c0|key v s c0].
    + done.
    + injection Hrun as <- <- <-.
      apply (invariant_update c i t); try done.
      * unfold thread_ok. cbn.
        destruct (seen t) as [[w n]|]; inversion Hok; subst; auto.
      * apply (inv_value _ _ _ Hinv).
      * intros e' He'. by exists e'.
    + destruct (INCR key (server c)) as [n r2] eqn:HI.
      injection Hrun as <- <- <-.
      destruct (seen t) as [[w0 n0]|] eqn:Hseen; [inversion Hok|].
      inversion Hok as [| |c1 Hafter Hkey]; subst.
      destruct Hinv as [_ Hval Hnd Hbd].
      destruct (INCR_counter _ _ _ HI Hval) as (Hn & Hlive & Hdb).
      set (w' := if n =? 1 then S (window c) else window c).
      set (t' := {| code := Pending (c0 n); seen := Some (w', n) |}).
      assert (omap seen (<[i := t']> (pool c)) ≡ₚ (w', n) :: omap seen (pool c))
        as Hperm by (by apply (omap_insert_new seen _ i t t')).
      assert ((w', n) ∉ omap seen (pool c)) as Hfresh.
      { intros Hin. destruct (Hbd _ _ Hin) as (Hw & _ & Hle). unfold w' in *.
        destruct (n =? 1) eqn:Hone; [lia|]. apply Z.eqb_neq in Hone.
        destruct (Hlive Hone) as (e & He & ->). specialize (Hle eq_refl e He). lia. }
      constructor; cbn.
      * apply Forall_insert; [done|]. unfold thread_ok. cbn. apply Hafter.
      * intros e' He'. rewrite (Hdb e' He'). lia.
      * rewrite Hperm. by apply NoDup_cons.
      * intros w n1. rewrite Hperm. intros [Heq|Hin]%elem_of_cons.
        -- injection Heq as -> ->. fold w'. split; [done|]. split; [done|].
           intros _ e' He'. apply live_Some_inv in He'. rewrite (Hdb e' He'). lia.
        -- destruct (Hbd _ _ Hin) as (Hw & Hn1 & Hle). fold w'.
           split; [unfold w'; destruct (n =? 1); lia|]. split; [done|].
           intros -> e' He'. apply live_Some_inv in He'. rewrite (Hdb e' He').
           unfold w' in *. destruct (n =? 1) eqn:Hone; [lia|].
           apply Z.eqb_neq in Hone. destruct (Hlive Hone) as (e & He & ->).
           specialize (Hle eq_refl e He). lia.
    + destruct (EXPIRE key s (server c)) as [z r2] eqn:HE.
      injection Hrun as <- <- <-.
      apply (invariant_update c i t); try done.
      * unfold thread_ok. cbn.
        destruct (seen t) as [[w n]|]; inversion Hok; subst; auto.
      * intros e' He'. destruct (EXPIRE_counter _ _ _ _ _ HE e' He') as (_ & e & He & ->).
        by apply (inv_value _ _ _ Hinv).
      * intros e' He'. apply live_Some_inv in He' as Hdb'.
        by apply (EXPIRE_counter _ _ _ _ _ HE e' Hdb').
    + destruct (seen t) as [[w n]|] eqn:Hseen; [|inversion Hok].
      inversion Hok as [| | |k1 v1 s1 c1 Hne Hafter]; subst.
      destruct (SET_EX key v s (server c)) as [r2|] eqn:HS;
        injection Hrun as <- <- <-.
      * destruct (SET_EX_counter _ _ _ _ _ HS Hne) as [Hdb Hlive].
        apply (invariant_update c i t); [done|done|by rewrite Hseen|..].
        -- unfold thread_ok. cbn. apply Hafter.
        -- intros e'. rewrite Hdb. apply (inv_value _ _ _ Hinv).
        -- intros e'. rewrite Hlive. intros He'. by exists e'.
      * apply (invariant_update c i t); [done|done|by rewrite Hseen|done|..].
        -- apply (inv_value _ _ _ Hinv).
        -- intros e' He'. by exists e'.
Qed.

Lemma init_invariant r n :
  (∀ e, db r !! rk = Some e → 0 ≤ value e) →
  invariant rk lim (init r n k W lim bd nm).
Proof.
  intros Hval.
  assert (omap seen (pool (init r n k W lim bd nm)) = []) as Hnone.
  { cbn. induction n as [|n IH]; [done|]. exact IH. }
  constructor.
  - cbn. apply Forall_replicate. unfold thread_ok. cbn. apply increment_before.
  - exact Hval.
  - rewrite Hnone. constructor.
  - rewrite Hnone. intros w m Hin. by apply elem_of_nil in Hin.
Qed.

Lemma reachable_invariant c c' :
  invariant rk lim c → rtc step c c' → invariant rk lim c'.
Proof.
  intros Hinv Hsteps. induction Hsteps as [c|c c1 c2 Hstep _ IH]; [done|].
  apply IH. by apply (step_preserves c).
Qed.

Lemma passed_in_seen w t n : passed_in w t = Some n → seen t = Some (w, n).
Proof.
  unfold passed_in. destruct (code t) as [[rec| | | |]|]; try done.
  destruct (seen t) as [[w' n']|]; [|done].
  destruct (isBlocked rec); [done|]. case_bool_decide; [|done].
  intros [= <-]. by subst.
Qed.

Lemma passed_NoDup w (l : list thread) :
  NoDup (omap seen l) → NoDup (omap (passed_in w) l).
Proof.
  induction l as [|t l IH]; [constructor|]. simpl.
  destruct (passed_in w t) as [n|] eqn:Hp.
  - rewrite (passed_in_seen _ _ _ Hp). intros [Hnotin Hnd]%NoDup_cons.
    apply NoDup_cons. split; [|by apply IH].
    intros Hin. apply Hnotin.
    apply list_elem_of_omap in Hin as (t' & Ht' & Hp').
    apply list_elem_of_omap. exists t'. split; [done|].
    by apply passed_in_seen.
  - destruct (seen t); [|exact IH].
    intros [_ Hnd]%NoDup_cons. by apply IH.
Qed.

Lemma returned_unblocked_inv t rec :
  returned_unblocked t = Some rec →
  code t = Pending (Ret rec) ∧ isBlocked rec = false.
Proof.
  unfold returned_unblocked. destruct (code t) as [[rec'| | | |]|]; try done.
  destruct (isBlocked rec') eqn:Hb; [done|]. by intros [= <-].
Qed.

(** A call that has come back unblocked was answered by INCR, and reports
    that answer. *)
Lemma unblocked_was_counted c t rec :
  invariant rk lim c → t ∈ pool c → returned_unblocked t = Some rec →
  ∃ w, seen t = Some (w, totalHits rec)
       ∧ (w ≤ window c)%nat ∧ 1 ≤ totalHits rec ≤ lim.
Proof.
  intros [Hth _ _ Hbd] Ht [Hcode Hb]%returned_unblocked_inv.
  pose proof (proj1 (Forall_forall _ _) Hth t Ht) as Hok.
  unfold thread_ok in Hok. rewrite Hcode in Hok.
  destruct (seen t) as [[w m]|] eqn:Hseen.
  - inversion Hok as [rec' Hlim| | |]; subst.
    destruct (Hlim Hb) as [<- Hle]. exists w. split; [done|].
    assert ((w, totalHits rec) ∈ omap seen (pool c)) as Hin
      by (apply list_elem_of_omap; by exists t).
    destruct (Hbd _ _ Hin) as (Hw & Hone & _). lia.
  - inversion Hok as [rec' Hblocked| |]; subst. congruence.
Qed.

Lemma unblocked_length c :
  invariant rk lim c →
  (length (unblocked c) ≤ S (window c) * Z.to_nat lim)%nat.
Proof.
  intros Hinv.
  set (tag := λ t : thread,
         match returned_unblocked t with Some _ => seen t | None => None end).
  assert (∀ l, Forall (λ t, t ∈ pool c) l →
               length (omap returned_unblocked l) = length (omap tag l))
    as Hsame.
  { induction l as [|t l IH]; [done|]. intros [Ht Hl]%Forall_cons. simpl.
    specialize (IH Hl). unfold omap in IH. unfold tag at 1.
    destruct (returned_unblocked t) as [rec|] eqn:Hr; [|exact IH].
    destruct (unblocked_was_counted c t rec Hinv Ht Hr) as (w & -> & _).
    simpl. by rewrite IH. }
  unfold unblocked. rewrite Hsame by (by apply Forall_forall).
  apply NoDup_pairs_bounded.
  - apply (omap_sub_NoDup seen); [|apply (inv_nodup _ _ _ Hinv)].
    intros t x. unfold tag. by destruct (returned_unblocked t).
  - intros w m (t & Ht & Htag)%list_elem_of_omap. unfold tag in Htag.
    destruct (returned_unblocked t) as [rec|] eqn:Hr; [|done].
    destruct (unblocked_was_counted c t rec Hinv Ht Hr) as (w' & Hs & Hw & Hm).
    rewrite Hs in Htag. injection Htag as <- <-. done.
Qed.

(** C5, as amended. Take any number of concurrent [increment] calls for one
    key, sent to a server that runs one command at a time, over a counter
    that does not start below zero; the block is looked up with TTL and set
    with SET, two commands with the INCR between them. Whatever the order
    in which the server takes the commands and however its clock moves in
    between: every call that has come back unblocked was answered by INCR
    and reports that answer, a number from 1 to [limit], as its hits; no
    two calls were given the same answer in the same window (a window opens
    when INCR answers 1); so the calls that came back unblocked with a hit
    counted in one window are at most [limit], and all that came back
    unblocked are at most [limit] for each window there has been. *)
Theorem unblocked_calls_are_counted_hits (r : redis) (n : nat) (c : config) :
  (∀ e, db r !! recordKey nm k = Some e → 0 ≤ value e) →
  rtc step (init r n k W lim bd nm) c →
  (∀ t rec, t ∈ pool c → returned_unblocked t = Some rec →
     1 ≤ totalHits rec ≤ lim
     ∧ ∃ w, (w ≤ window c)%nat
            ∧ seen t = Some (w, totalHits rec)
            ∧ totalHits rec ∈ passed w c)
  ∧ (∀ i j t t', pool c !! i = Some t → pool c !! j = Some t' →
       is_Some (seen t) → seen t = seen t' → i = j)
  ∧ (∀ w, (length (passed w c) ≤ Z.to_nat lim)%nat)
  ∧ (length (unblocked c) ≤ S (window c) * Z.to_nat lim)%nat.
Proof.
  intros Hval Hsteps.
  pose proof (reachable_invariant _ _ (init_invariant r n Hval) Hsteps) as Hinv.
  split; [|split; [|split]].
  - intros t rec Ht Hr.
    destruct (unblocked_was_counted c t rec Hinv Ht Hr) as (w & Hs & Hw & Hm).
    split; [done|]. exists w. split; [done|]. split; [done|].
    apply list_elem_of_omap. exists t. split; [done|].
    apply returned_unblocked_inv in Hr as [Hcode Hb].
    unfold passed_in. rewrite Hcode, Hs, Hb. by rewrite bool_decide_true.
  - intros i j t t' Hi Hj [x Hx] Heq.
    apply (omap_NoDup_lookup seen (pool c) i j t t' x);
      [apply (inv_nodup _ _ _ Hinv)|done|done|done|congruence].
  - intros w. apply NoDup_bounded_length.
    + apply passed_NoDup, (inv_nodup _ _ _ Hinv).
    + intros m (t & Ht & Hp)%list_elem_of_omap.
      pose proof (passed_in_seen _ _ _ Hp) as Hseen.
      assert (∃ rec, returned_unblocked t = Some rec) as [rec Hr].
      { unfold passed_in in Hp. unfold returned_unblocked.
        destruct (code t) as [[rec| | | |]|]; try done.
        destruct (seen t) as [[? ?]|]; [|done].
        destruct (isBlocked rec); [done|]. by exists rec. }
      destruct (unblocked_was_counted c t rec Hinv Ht Hr) as (w' & Hs & _ & Hm).
      rewrite Hs in Hseen. by injection Hseen as _ <-.
  - by apply unblocked_length.
Qed.

End InterleavingProperties.

Lemma run_schedule_steps sched c :
  rtc Interleaving.step c (Interleaving.run_schedule sched c).
Proof.
  revert c. induction sched as [|u sched IH]; intros c; [constructor|].
  cbn. etrans; [|apply IH].
  destruct u as [i|d]; cbn.
  - destruct (Interleaving.pool c !! i) as [t|] eqn:Hi; [|constructor].
    destruct (Interleaving.run_cmd _ _ t) as [[[r' w'] t']|] eqn:Hrun;
      [|constructor].
    apply rtc_once. by apply (Interleaving.step_cmd i t).
  - apply rtc_once. apply Interleaving.step_tick.
Qed.

(** Three calls with limit 2 whose commands the server takes in turn: the
    two that were answered 1 and 2 by INCR pass, the third is blocked. *)
Example three_callers_limit_two :
  Interleaving.passed 1
    (Interleaving.run_schedule Scenario.round_robin
       (Interleaving.init (Redis.Mk ∅ 0) 3 "ip" 60 2 30 "default"))
  = [1; 2].
Proof. vm_compute. reflexivity. Qed.

Lemma unblocked_calls_are_counted_hits_witness :
  (∀ t rec,
     t ∈ Interleaving.pool
           (Interleaving.run_schedule Scenario.round_robin
              (Interleaving.init (Redis.Mk ∅ 0) 3 "ip" 60 2 30 "default")) →
     Interleaving.returned_unblocked t = Some rec →
     1 ≤ Throttler.totalHits rec ≤ 2
     ∧ ∃ w, (w ≤ Interleaving.window
                   (Interleaving.run_schedule Scenario.round_robin
                      (Interleaving.init (Redis.Mk ∅ 0) 3 "ip" 60 2 30
                         "default")))%nat
            ∧ Interleaving.seen t = Some (w, Throttler.totalHits rec)
            ∧ Throttler.totalHits rec
              ∈ Interleaving.passed w
                  (Interleaving.run_schedule Scenario.round_robin
                     (Interleaving.init (Redis.Mk ∅ 0) 3 "ip" 60 2 30
                        "default")))
  ∧ (∀ i j t t',
       Interleaving.pool
         (Interleaving.run_schedule Scenario.round_robin
            (Interleaving.init (Redis.Mk ∅ 0) 3 "ip" 60 2 30 "default"))
         !! i = Some t →
       Interleaving.pool
         (Interleaving.run_schedule Scenario.round_robin
            (Interleaving.init (Redis.Mk ∅ 0) 3 "ip" 60 2 30 "default"))
         !! j = Some t' →
       is_Some (Interleaving.seen t) →
       Interleaving.seen t = Interleaving.seen t' → i = j)
  ∧ (∀ w,
       (length (Interleaving.passed w
          (Interleaving.run_schedule Scenario.round_robin
             (Interleaving.init (Redis.Mk ∅ 0) 3 "ip" 60 2 30 "default")))
        ≤ Z.to_nat 2)%nat)
  ∧ (length (Interleaving.unblocked
       (Interleaving.run_schedule Scenario.round_robin
          (Interleaving.init (Redis.Mk ∅ 0) 3 "ip" 60 2 30 "default")))
     ≤ S (Interleaving.window
            (Interleaving.run_schedule Scenario.round_robin
               (Interleaving.init (Redis.Mk ∅ 0) 3 "ip" 60 2 30 "default")))
       * Z.to_nat 2)%nat.
Proof.
  apply (unblocked_calls_are_counted_hits "ip" 60 2 30 "default"
           (Redis.Mk ∅ 0) 3).
  - intros e He. vm_compute in He. discriminate.
  - apply run_schedule_steps.
Defined.

(** The two calls that pass in that run report the hits 1 and 2. *)
Example three_callers_report_their_hits :
  Throttler.totalHits <$>
    Interleaving.unblocked
      (Interleaving.run_schedule Scenario.round_robin
         (Interleaving.init (Redis.Mk ∅ 0) 3 "ip" 60 2 30 "default"))
  = [1; 2].
Proof. vm_compute. reflexivity. Qed.

(** C5 fails as it is stated: the check of the block and its setting are
    not one atomic step. A call whose check found no block is answered as
    unblocked by a store in which the key has been blocked for six seconds
    and stays so for another 24; and a call whose check found no block sets
    the block over one that has 20 seconds left, which starts the 30
    seconds anew. *)
Lemma check_and_set_are_separate_commands :
  ¬ (∀ (r : Redis.redis) (n : nat) (key : string) (ttl limit bd : Z)
       (name : string) (c : Interleaving.config) (i : nat)
       (t t' : Interleaving.thread) (r' : Redis.redis) (w' : nat)
       (rec : Throttler.ThrottlerStorageRecord),
       rtc Interleaving.step (Interleaving.init r n key ttl limit bd name) c →
       Interleaving.pool c !! i = Some t →
       Interleaving.run_cmd (Interleaving.server c) (Interleaving.window c) t
         = Some (r', w', t') →
       Interleaving.code t' = Interleaving.Pending (Redis.Ret rec) →
       Throttler.isBlocked rec = false →
       Redis.TTL (Throttler.blockKey name key) r' ≤ 0)
  ∧ ¬ (∀ (r : Redis.redis) (n : nat) (key : string) (ttl limit bd : Z)
         (name : string) (c : Interleaving.config) (i : nat)
         (t : Interleaving.thread) (v s : Z)
         (rest : unit → Redis.prog Throttler.ThrottlerStorageRecord),
         rtc Interleaving.step (Interleaving.init r n key ttl limit bd name) c →
         Interleaving.pool c !! i = Some t →
         Interleaving.code t
           = Interleaving.Pending
               (Redis.SetEx (Throttler.blockKey name key) v s rest) →
         Redis.TTL (Throttler.blockKey name key) (Interleaving.server c) ≤ 0).
Proof.
  split.
  - intros H.
    pose (c := Interleaving.run_schedule Scenario.late_answer
                 (Interleaving.init (Redis.Mk ∅ 0) 2 "ip" 60 1 30 "default")).
    destruct (Interleaving.pool c !! 0%nat) as [t|] eqn:Ht;
      [|vm_compute in Ht; discriminate].
    destruct (Interleaving.run_cmd (Interleaving.server c)
                (Interleaving.window c) t) as [[[r' w'] t']|] eqn:Hrun;
      [|vm_compute in Ht; injection Ht as <-; vm_compute in Hrun; discriminate].
    specialize (H (Redis.Mk ∅ 0) 2%nat "ip" 60 1 30 "default" c 0%nat t t' r' w'
      {| Throttler.totalHits := 1; Throttler.timeToExpire := 54;
         Throttler.blockDuration := 30; Throttler.key := "ip";
         Throttler.limit := 1; Throttler.isBlocked := false;
         Throttler.timeToBlockExpire := 0 |}
      (run_schedule_steps _ _) Ht Hrun).
    vm_compute in Ht. injection Ht as <-.
    vm_compute in Hrun. injection Hrun as <- <- <-.
    specialize (H eq_refl eq_refl). vm_compute in H. by apply H.
  - intros H.
    pose (c := Interleaving.run_schedule Scenario.second_block
                 (Interleaving.init (Redis.Mk ∅ 0) 3 "ip" 60 1 30 "default")).
    destruct (Interleaving.pool c !! 2%nat) as [t|] eqn:Ht;
      [|vm_compute in Ht; discriminate].
    specialize (H (Redis.Mk ∅ 0) 3%nat "ip" 60 1 30 "default" c 2%nat t 1 30
      (λ _, Redis.Ret
         {| Throttler.totalHits := 3; Throttler.timeToExpire := 50;
            Throttler.blockDuration := 30; Throttler.key := "ip";
            Throttler.limit := 1; Throttler.isBlocked := true;
            Throttler.timeToBlockExpire := 30 |})
      (run_schedule_steps _ _) Ht).
    vm_compute in Ht. injection Ht as <-.
    specialize (H eq_refl). vm_compute in H. by apply H.
Qed.

(** What those two runs leave behind: the first call holds an unblocked
    record while the block has 24 seconds to go; the third call's SET puts
    the block back to 30 seconds. *)
Example block_is_checked_then_set :
  Redis.TTL "default:ip:block"
    (Interleaving.server
       (Interleaving.run_schedule
          (Scenario.late_answer ++ [Interleaving.fire 0])
          (Interleaving.init (Redis.Mk ∅ 0) 2 "ip" 60 1 30 "default"))) = 24
  ∧ Throttler.isBlocked <$>
      Interleaving.unblocked
        (Interleaving.run_schedule
           (Scenario.late_answer ++ [Interleaving.fire 0])
           (Interleaving.init (Redis.Mk ∅ 0) 2 "ip" 60 1 30 "default"))
    = [false]
  ∧ Redis.TTL "default:ip:block"
      (Interleaving.server
         (Interleaving.run_schedule Scenario.second_block
            (Interleaving.init (Redis.Mk ∅ 0) 3 "ip" 60 1 30 "default"))) = 20
  ∧ Redis.TTL "default:ip:block"
      (Interleaving.server
         (Interleaving.run_schedule
            (Scenario.second_block ++ [Interleaving.fire 2])
            (Interleaving.init (Redis.Mk ∅ 0) 3 "ip" 60 1 30 "default"))) = 30.
Proof. repeat split; vm_compute; reflexivity. Qed.

Lemma demo_uuid_non_blank n :
  Js.non_blank (Gateway.uuidv4 Scenario.demo n) = true.
Proof.
  unfold Js.non_blank, Js.trim. cbn. unfold String.app. simpl.
  by destruct (Js.trimEnd _).
Qed.

Lemma notification_headers_fill_gaps_witness :
  ∃ hdrs,
    Scenario.forwarded
      (Gateway.middleware Scenario.demo
         (Gateway.notificationsRoute Scenario.demo)
         (Scenario.request "POST" "/notifications/send" "/send"
            [("x-idempotency-key", Gateway.HStr "order-17")]) 0%nat).1
      = Some hdrs
    ∧ hdrs !! "X-Idempotency-Key" = Some "order-17"
    ∧ hdrs !! "X-Correlation-ID" = Some "uuid-".
Proof.
  destruct (notification_headers_fill_gaps Scenario.demo
              (Scenario.request "POST" "/notifications/send" "/send"
                 [("x-idempotency-key", Gateway.HStr "order-17")]) 0%nat)
    as (hdrs & Hfwd & Hidem & _ & _ & Hcorr & _).
  - vm_compute. reflexivity.
  - apply demo_uuid_non_blank.
  - exists hdrs. split; [exact Hfwd|]. split.
    + apply Hidem; vm_compute; reflexivity.
    + destruct Hcorr as (n & Hn & Hc); [vm_compute; reflexivity|].
      vm_compute in Hn. assert (n = 0%nat) as -> by lia. exact Hc.
Defined.

(** ** More on the rate limiter *)

Section ThrottlerMore.
Import Redis Throttler.

(** The counting path of [increment] when the block check lets the call
    through and the counter is live: what INCR answers and what is left in
    the store under the counter key. *)
Lemma exec_increment_unblocked key W limit bd name lag r e :
  TTL (blockKey name key) (advance (hd 0%nat lag) r) ≤ 0 →
  live (advance (hd 0%nat (tail lag)) (advance (hd 0%nat lag) r))
    (recordKey name key) = Some e →
  value e ≠ 0 →
  ∃ o r' lag',
    exec (increment key W limit bd name) lag r = (o, r', lag')
    ∧ db r' !! recordKey name key = Some (Entry (value e + 1) (expire_at e))
    ∧ (∀ rec, o = Fulfilled rec →
         totalHits rec = value e + 1
         ∧ (expire_at e = None → timeToExpire rec = -1)).
Proof.
  intros Hblock Hlive Hval. unfold increment. cbn.
  assert ((0 <? TTL (blockKey name key) (advance (hd 0%nat lag) r)) = false)
    as Hb by (apply Z.ltb_ge; lia).
  rewrite Hb. cbn. rewrite (INCR_live _ _ _ Hlive). cbn.
  assert ((value e + 1 =? 1) = false) as Hone by (apply Z.eqb_neq; lia).
  rewrite Hone. cbn.
  pose proof (record_block_keys_differ name key) as Hne.
  set (r3 := advance _ _).
  assert (expire_at e = None → TTL (recordKey name key) r3 = -1) as Httl.
  { intros Hnone. unfold TTL, live, expired, r3. cbn. rewrite lookup_insert_eq.
    cbn. by rewrite Hnone. }
  destruct (limit <? value e + 1); cbn.
  - destruct (SET_EX _ _ _ _) as [r4|] eqn:Hset; cbn.
    + eexists _, _, _. split; [reflexivity|]. split.
      * unfold SET_EX in Hset. destruct (bd <=? 0); [done|].
        injection Hset as <-. cbn. rewrite lookup_insert_ne by done.
        by rewrite lookup_insert_eq.
      * intros rec [= <-]. cbn. split; [done|exact Httl].
    + eexists _, _, _. split; [reflexivity|]. split.
      * cbn. by rewrite lookup_insert_eq.
      * intros rec [=].
  - eexists _, _, _. split; [reflexivity|]. split.
    + cbn. by rewrite lookup_insert_eq.
    + intros rec [= <-]. cbn. split; [done|exact Httl].
Qed.

(** X1. Whatever the store holds and however long the round trips take, a
    call that is fulfilled reports a positive time to the end of the block
    exactly when it reports blocked, and reports unblocked only with a hit
    count within the limit. *)
Theorem increment_record_is_consistent key W limit bd name lag r rec r' lag' :
  exec (increment key W limit bd name) lag r = (Fulfilled rec, r', lag') →
  (isBlocked rec = true ↔ 0 < timeToBlockExpire rec)
  ∧ (isBlocked rec = false → totalHits rec ≤ limit)
  ∧ Throttler.key rec = key ∧ Throttler.limit rec = limit.
Proof.
  unfold increment. cbn.
  destruct (0 <? TTL _ _) eqn:Hb; cbn.
  - intros [= <- _ _]. cbn. apply Z.ltb_lt in Hb. by repeat split.
  - destruct (INCR _ _) as [n r2]. cbn.
    assert (∀ lag2 r3,
      exec (Ttl (recordKey name key) (λ te,
              if limit <? n
              then SetEx (blockKey name key) 1 bd (λ _,
                     mret {| totalHits := n; timeToExpire := te;
                             blockDuration := bd; key := key; limit := limit;
                             isBlocked := true; timeToBlockExpire := bd |})
              else mret {| totalHits := n; timeToExpire := te;
                           blockDuration := bd; key := key; limit := limit;
                           isBlocked := false; timeToBlockExpire := 0 |}))
        lag2 r3 = (Fulfilled rec, r', lag') →
      (isBlocked rec = true ↔ 0 < timeToBlockExpire rec)
      ∧ (isBlocked rec = false → totalHits rec ≤ limit)
      ∧ Throttler.key rec = key ∧ Throttler.limit rec = limit) as Htail.
    { intros lag2 r3. cbn. destruct (limit <? n) eqn:Hlim; cbn.
      - unfold SET_EX. destruct (bd <=? 0) eqn:Hbd; [done|]. cbn.
        intros [= <- _ _]. cbn. apply Z.leb_gt in Hbd. by repeat split.
      - intros [= <- _ _]. cbn. apply Z.ltb_ge in Hlim.
        repeat split; try done; lia. }
    destruct (n =? 1); cbn.
    + destruct (EXPIRE _ _ _) as [z r3]. apply Htail.
    + apply Htail.
Qed.

Lemma live_without_deadline r key v :
  db r !! key = Some (Entry v None) → live r key = Some (Entry v None).
Proof. intros Hk. unfold live, expired. by rewrite Hk. Qed.


(** X3. A counter that has no deadline (its EXPIRE never happened) is never
    given one: a call that is not answered from the block record counts on
    it, leaves it without deadline, and reports -1 as the time left in the
    window. *)
Theorem counter_without_deadline_stays_so key W limit bd name lag r i :
  db r !! recordKey name key = Some (Entry i None) →
  i ≠ 0 →
  TTL (blockKey name key) (advance (hd 0%nat lag) r) ≤ 0 →
  ∃ o r' lag',
    exec (increment key W limit bd name) lag r = (o, r', lag')
    ∧ db r' !! recordKey name key = Some (Entry (i + 1) None)
    ∧ (∀ rec, o = Fulfilled rec →
         totalHits rec = i + 1 ∧ timeToExpire rec = -1).
Proof.
  intros Hrk Hi Hb.
  destruct (exec_increment_unblocked key W limit bd name lag r
              (Entry i None) Hb) as (o & r' & lag' & Hexec & Hdb & Hrec).
  { by apply live_without_deadline. }
  { exact Hi. }
  exists o, r', lag'. split; [exact Hexec|]. split; [exact Hdb|].
  intros rec Ho. destruct (Hrec rec Ho) as [Hh Ht]. split; [exact Hh|by apply Ht].
Qed.

(** X4. When a block has run out while the counter's window is still open
    with the limit already reached, the next call is blocked again for a
    full block duration, although nothing was let through since the block
    was set. *)
Theorem stale_counter_blocks_again key W limit bd name lag r i x :
  db r !! recordKey name key = Some (Entry i (Some x)) →
  live r (blockKey name key) = None →
  1 ≤ i → limit ≤ i → 0 < bd →
  now r + Z.of_nat (sum_list lag) < x →
  ∃ rec r' lag',
    exec (increment key W limit bd name) lag r = (Fulfilled rec, r', lag')
    ∧ isBlocked rec = true
    ∧ timeToBlockExpire rec = bd
    ∧ TTL (blockKey name key) r' = bd
    ∧ db r' !! recordKey name key = Some (Entry (i + 1) (Some x)).
Proof.
  intros Hrk Hbk Hi Hlim Hbd Hx.
  destruct (exec_increment_counting key W limit bd name lag r i x Hrk Hbk Hi Hx)
    as (o & r' & lag' & Hexec & _ & Hdb & _ & Hblock).
  destruct Hblock as [Httl (rec & -> & Hb & Ht)]; [lia|done|].
  by exists rec, r', lag'.
Qed.

Lemma EXPIRE_delete r key e s :
  live r key = Some e → s ≤ 0 →
  EXPIRE key s r = (1, Mk (delete key (db r)) (now r)).
Proof.
  intros Hl Hs. unfold EXPIRE. rewrite Hl.
  assert ((s <=? 0) = true) as Hle by (by apply Z.leb_le).
  by rewrite Hle.
Qed.

Lemma exec_increment_no_window key W limit bd name lag r :
  live r (recordKey name key) = None →
  live r (blockKey name key) = None →
  W ≤ 0 → 1 ≤ limit →
  ∃ rec r' lag',
    exec (increment key W limit bd name) lag r = (Fulfilled rec, r', lag')
    ∧ isBlocked rec = false ∧ totalHits rec = 1 ∧ timeToExpire rec = -2
    ∧ live r' (recordKey name key) = None
    ∧ live r' (blockKey name key) = None.
Proof.
  intros Hrk Hbk HW Hlim. unfold increment. cbn.
  rewrite (TTL_None _ _ (live_advance_None _ _ _ Hbk)). cbn.
  pose proof (record_block_keys_differ name key) as Hne.
  rewrite INCR_fresh by (by do 2 apply live_advance_None). cbn.
  rewrite (EXPIRE_delete _ _ (Entry 1 None));
    [|unfold advance; cbn; by rewrite live_insert_eq|done].
  cbn. rewrite delete_insert_eq.
  assert (∀ m t, live (Mk (delete (recordKey name key) m) t)
                   (recordKey name key) = None) as Hgone.
  { intros m t. unfold live. cbn. by rewrite lookup_delete_eq. }
  unfold TTL, advance. cbn. rewrite Hgone.
  assert ((limit <? 1) = false) as Hl by (apply Z.ltb_ge; lia). rewrite Hl. cbn.
  eexists _, _, _. split; [reflexivity|]. cbn.
  split; [done|]. split; [done|]. split; [done|]. split; [apply Hgone|].
  unfold live. cbn. rewrite lookup_delete_ne by done.
  pose proof (live_advance_None
    (hd 0 lag + hd 0 (tail lag) + hd 0 (tail (tail lag))
     + hd 0 (tail (tail (tail lag))))%nat _ _ Hbk) as Hb.
  unfold live in Hb. cbn in Hb.
  replace (now r + Z.of_nat (hd 0%nat lag) + Z.of_nat (hd 0%nat (tail lag))
           + Z.of_nat (hd 0%nat (tail (tail lag)))
           + Z.of_nat (hd 0%nat (tail (tail (tail lag)))))
    with (now r + Z.of_nat (hd 0 lag + hd 0 (tail lag)
                            + hd 0 (tail (tail lag))
                            + hd 0 (tail (tail (tail lag))))%nat) by lia.
  exact Hb.
Qed.

(** X5. With a window that is not positive the limiter never blocks: the
    counter is deleted as soon as it is created, so every call of a run, as
    long as the limit is at least 1, counts one hit and comes back
    unblocked. *)
Theorem non_positive_window_never_blocks key W limit bd name (n : nat) :
  W ≤ 0 → 1 ≤ limit →
  ∀ lag r,
    live r (recordKey name key) = None →
    live r (blockKey name key) = None →
    ∃ recs r' lag',
      calls n key W limit bd name lag r = (Fulfilled <$> recs, r', lag')
      ∧ length recs = n
      ∧ Forall (λ rec, isBlocked rec = false ∧ totalHits rec = 1) recs.
Proof.
  intros HW Hlim. induction n as [|n IH]; intros lag r Hrk Hbk.
  - by exists [], r, lag.
  - destruct (exec_increment_no_window key W limit bd name lag r Hrk Hbk HW Hlim)
      as (rec & r1 & lag1 & Hexec & Hb & Hh & _ & Hrk1 & Hbk1).
    destruct (IH lag1 r1 Hrk1 Hbk1) as (recs & r' & lag' & Hcalls & Hlen & Hall).
    exists (rec :: recs), r', lag'. rewrite calls_S, Hexec, Hcalls.
    split; [done|]. split; [cbn; lia|]. by constructor.
Qed.

End ThrottlerMore.

Lemma increment_record_is_consistent_witness :
  (Throttler.isBlocked Scenario.blocked_record = true
   ↔ 0 < Throttler.timeToBlockExpire Scenario.blocked_record)
  ∧ (Throttler.isBlocked Scenario.blocked_record = false →
     Throttler.totalHits Scenario.blocked_record ≤ 3)
  ∧ Throttler.key Scenario.blocked_record = "ip"
  ∧ Throttler.limit Scenario.blocked_record = 3.
Proof.
  apply (increment_record_is_consistent "ip" 60 3 30 "default" [2%nat]
           Scenario.blocked_store Scenario.blocked_record
           (Redis.advance 2 Scenario.blocked_store) []).
  vm_compute. reflexivity.
Defined.


Lemma counter_without_deadline_stays_so_witness :
  ∃ o r' lag',
    Redis.exec (Throttler.increment "ip" 60 3 30 "default") []
      Scenario.orphan_store = (o, r', lag')
    ∧ Redis.db r' !! Throttler.recordKey "default" "ip"
      = Some (Redis.Entry (2 + 1) None)
    ∧ (∀ rec, o = Redis.Fulfilled rec →
         Throttler.totalHits rec = 2 + 1 ∧ Throttler.timeToExpire rec = -1).
Proof.
  apply (counter_without_deadline_stays_so "ip" 60 3 30 "default" []
           Scenario.orphan_store 2).
  - vm_compute. reflexivity.
  - lia.
  - vm_compute. discriminate.
Defined.

Lemma stale_counter_blocks_again_witness :
  ∃ rec r' lag',
    Redis.exec (Throttler.increment "ip" 60 3 30 "default") []
      Scenario.stale_store = (Redis.Fulfilled rec, r', lag')
    ∧ Throttler.isBlocked rec = true
    ∧ Throttler.timeToBlockExpire rec = 30
    ∧ Redis.TTL (Throttler.blockKey "default" "ip") r' = 30
    ∧ Redis.db r' !! Throttler.recordKey "default" "ip"
      = Some (Redis.Entry (4 + 1) (Some 50)).
Proof.
  apply (stale_counter_blocks_again "ip" 60 3 30 "default" []
           Scenario.stale_store 4 50).
  - vm_compute. reflexivity.
  - vm_compute. reflexivity.
  - lia.
  - lia.
  - lia.
  - cbn. lia.
Defined.

Lemma non_positive_window_never_blocks_witness :
  ∃ recs r' lag',
    Throttler.calls 5 "ip" 0 3 30 "default" [] (Redis.Mk ∅ 0)
      = (Redis.Fulfilled <$> recs, r', lag')
    ∧ length recs = 5%nat
    ∧ Forall (λ rec, Throttler.isBlocked rec = false
                     ∧ Throttler.totalHits rec = 1) recs.
Proof.
  apply (non_positive_window_never_blocks "ip" 0 3 30 "default" 5).
  - lia.
  - lia.
  - reflexivity.
  - reflexivity.
Defined.

(** ** More on the request pipeline *)

Section JsStrings.
Import Js.

Lemma trimEnd_idempotent s : trimEnd (trimEnd s) = trimEnd s.
Proof.
  induction s as [|c s IH]; [done|]. cbn.
  destruct (trimEnd s) as [|c' t] eqn:Ht.
  - destruct (is_white c) eqn:Hc; [done|]. cbn. by rewrite Hc.
  - cbn. cbn in IH. by rewrite IH.
Qed.

Lemma trimStart_head s :
  trimStart s = EmptyString
  ∨ ∃ c rest, trimStart s = String c rest ∧ is_white c = false.
Proof.
  induction s as [|c s IH]; [by left|]. cbn.
  destruct (is_white c) eqn:Hc; [exact IH|]. right. by exists c, s.
Qed.

Lemma trimEnd_head c rest :
  is_white c = false → ∃ rest', trimEnd (String c rest) = String c rest'.
Proof.
  intros Hc. cbn. destruct (trimEnd rest); rewrite ?Hc; by eexists.
Qed.

Lemma trim_idempotent s : trim (trim s) = trim s.
Proof.
  unfold trim. destruct (trimStart_head s) as [->|(c & rest & -> & Hc)]; [done|].
  destruct (trimEnd_head c rest Hc) as [rest' Hrest']. rewrite Hrest'.
  cbn [trimStart]. rewrite Hc. rewrite <- Hrest'. apply trimEnd_idempotent.
Qed.

Lemma append_cons c p s : String c p +:+ s = String c (p +:+ s).
Proof. reflexivity. Qed.

Lemma append_empty s : EmptyString +:+ s = s.
Proof. reflexivity. Qed.

Lemma startsWith_app p s : startsWith (p +:+ s) p = true.
Proof.
  unfold startsWith. induction p as [|c p IH].
  - rewrite append_empty. by destruct s.
  - rewrite append_cons. cbn. destruct (ascii_dec c c); [exact IH|done].
Qed.

Lemma substring_from_app p s :
  substring_from (String.length p) (p +:+ s) = s.
Proof.
  induction p as [|c p IH]; [done|]. rewrite append_cons. cbn. exact IH.
Qed.

Lemma includes_prefix s p u :
  String.prefix p s = true → includes p u = true → includes s u = true.
Proof.
  revert s. induction p as [|c p IH]; intros s Hp Hu.
  - cbn in Hu. rewrite orb_false_r in Hu. destruct u; [|done].
    destruct s; cbn; done.
  - destruct s as [|c' s]; [done|]. cbn in Hp.
    destruct (ascii_dec c c') as [<-|]; [|done].
    cbn in Hu. apply orb_true_iff in Hu as [Hu|Hu].
    + cbn. apply orb_true_iff. left.
      clear IH. revert p s Hp Hu. cbn.
      assert (∀ a b d : string, String.prefix a b = true →
                String.prefix b d = true → String.prefix a d = true) as Htrans.
      { induction a as [|x a IHa]; intros b d Hab Hbd; [by destruct d|].
        destruct b as [|y b]; [done|]. destruct d as [|z d]; [done|].
        cbn in *. destruct (ascii_dec x y) as [->|]; [|done].
        destruct (ascii_dec y z) as [->|]; [|done].
        destruct (ascii_dec z z); [|done]. by apply (IHa b d). }
      intros p s Hp Hu.
      apply (Htrans u (String c p) (String c s)); [exact Hu|].
      cbn. by destruct (ascii_dec c c).
    + cbn. apply orb_true_iff. right. by apply IH.
Qed.

End JsStrings.

Section GatewayMore.
Import Js Gateway Scenario.
Variable E : Env.

Lemma rejects_when_no_claims rt req rng :
  startsWith (original_or_url req) (path rt) = true →
  requireAuth rt req = true →
  (authenticate E req).2 = None →
  middleware E rt req rng =
    (((authenticate E req).1 ++ [Reply 401 unauthorized])%list, rng).
Proof.
  intros Hpre Hauth Hno. rewrite middleware_unfold. unfold proxy. cbn.
  by rewrite Hpre, Hauth, Hno.
Qed.

(** X6. A request that carries no Authorization header, under any of the
    three spellings the helper looks up, to a route that requires
    authentication is answered 401 at once: nothing is validated and
    nothing is forwarded. *)
Theorem missing_authorization_is_rejected rt req rng :
  headers req !! "authorization" = None →
  headers req !! "Authorization" = None →
  headers req !! "AUTHORIZATION" = None →
  startsWith (original_or_url req) (path rt) = true →
  requireAuth rt req = true →
  extractTokenFromRequest req = None
  ∧ middleware E rt req rng = ([Reply 401 unauthorized], rng).
Proof.
  intros H1 H2 H3 Hpre Hauth.
  assert (extractTokenFromRequest req = None) as Hnone.
  { unfold extractTokenFromRequest, req_get.
    change (toLowerCase "authorization") with "authorization".
    change (toLowerCase "Authorization") with "authorization".
    by rewrite H1, H2, H3. }
  split; [exact Hnone|].
  assert (authenticate E req = ([], None)) as Hauthn
    by (unfold authenticate; by rewrite Hnone).
  rewrite rejects_when_no_claims by (done || by rewrite Hauthn).
  by rewrite Hauthn.
Qed.

(** X7. The token the helper extracts: from a header "Bearer " followed by
    [t] it is [t] trimmed; and whatever the header, an extracted token has
    no white space left at either end. *)
Theorem extracted_token_is_trimmed req :
  (∀ t, headers req !! "authorization" = Some (HStr ("Bearer " +:+ t)) →
        extractTokenFromRequest req = Some (trim t))
  ∧ (∀ token, extractTokenFromRequest req = Some token → trim token = token).
Proof.
  split.
  - intros t Ht. unfold extractTokenFromRequest. rewrite Ht.
    assert (hv_truthy (Some (HStr ("Bearer " +:+ t))) = true) as Htr
      by reflexivity.
    assert (∀ b, hv_or (Some (HStr ("Bearer " +:+ t))) b
                 = Some (HStr ("Bearer " +:+ t))) as Hor
      by (intros b; unfold hv_or; by rewrite Htr).
    rewrite !Hor, Htr. cbn [negb].
    rewrite (startsWith_app "Bearer " t).
    change 7%nat with (String.length "Bearer ").
    by rewrite (substring_from_app "Bearer " t).
  - intros token. unfold extractTokenFromRequest.
    destruct (negb _); [done|].
    destruct (hv_or _ _) as [[s|items]|]; [|done|done].
    destruct (startsWith s "Bearer "); intros [= <-]; apply trim_idempotent.
Qed.

(** X8. Without a configured secret (none, or the empty string) the gate
    fails closed: whatever token a request presents, a route that requires
    authentication answers 401 and forwards nothing. *)
Theorem no_secret_no_entry rt req rng :
  (JWT_SECRET E = None ∨ JWT_SECRET E = Some "") →
  startsWith (original_or_url req) (path rt) = true →
  requireAuth rt req = true →
  middleware E rt req rng =
    (((authenticate E req).1 ++ [Reply 401 unauthorized])%list, rng)
  ∧ forwarded (middleware E rt req rng).1 = None.
Proof.
  intros Hsecret Hpre Hauth.
  assert (∀ token, validateToken E token = None) as Hval.
  { intros token. unfold validateToken. by destruct Hsecret as [-> | ->]. }
  assert (middleware E rt req rng =
          (((authenticate E req).1 ++ [Reply 401 unauthorized])%list, rng)) as Heq.
  { apply rejects_when_no_claims; [done|done|].
    apply authenticate_without_claims. intros token _ _. apply Hval. }
  split; [exact Heq|]. rewrite Heq. cbn.
  pose proof (authenticate_only_validates E req) as Hv. clear Heq.
  induction Hv as [|ev evs Hev _ IH]; cbn; [done|].
  destruct ev; try discriminate. exact IH.
Qed.

(** X9. The authenticated pass: on a route without a header strategy, a
    request under the prefix whose token validates is forwarded to the
    route's target after one validation; if the route requires
    authentication the upstream gets the subject of the token under
    x-user-id, whatever x-user-id the client sent. *)
Theorem valid_token_is_forwarded_with_identity rt req rng token payload :
  routeHeaders rt = None →
  startsWith (original_or_url req) (path rt) = true →
  extractTokenFromRequest req = Some token →
  truthy_str token = true →
  validateToken E token = Some payload →
  ∃ hdrs,
    middleware E rt req rng =
      ([Validate token; Proxy (target rt) (original_or_url req) hdrs], rng)
    ∧ (requireAuth rt req = true →
       hdrs !! "x-user-id" = Some (user_id payload)).
Proof.
  intros Hnone Hpre Htok Htruthy Hval.
  rewrite middleware_unfold. unfold authenticate. rewrite Htok, Htruthy, Hval.
  unfold proxy. cbn. rewrite Hpre. cbn. rewrite andb_false_r. cbn.
  unfold proxyReqOptDecorator, run_extra. cbn. rewrite Hnone. cbn.
  eexists. split; [reflexivity|]. intros Hauth. rewrite Hauth.
  unfold add_user_id. cbn. by rewrite lookup_insert_eq.
Qed.

Lemma isPublic_public_paths req :
  includes (split_query_head (original_or_url req)) "signin" = true
  ∨ includes (split_query_head (original_or_url req)) "signup" = true →
  isPublic req = true.
Proof.
  unfold isPublic. intros [Hin|Hup]; cbn.
  - rewrite Hin. by rewrite !orb_true_r.
  - rewrite Hup. by rewrite !orb_true_r.
Qed.

(** X10. The allow-list of the user route is a substring test: a request is
    public exactly when its path (before any question mark) contains
    "signin" or "signup" anywhere, or its mount-relative path is one of the
    four listed paths or lies below one. The exact and prefix tests on the
    full path add nothing. *)
Theorem isPublic_is_a_substring_test req :
  isPublic req = true ↔
  includes (split_query_head (original_or_url req)) "signin" = true
  ∨ includes (split_query_head (original_or_url req)) "signup" = true
  ∨ existsb (λ p, String.eqb (split_query_head (url req)) p
                  || startsWith (split_query_head (url req)) (p +:+ "/"))
      publicPaths = true.
Proof.
  unfold isPublic. set (rp := split_query_head (original_or_url req)).
  set (rel := split_query_head (url req)). split.
  - intros (p & Hp & Hcond)%existsb_exists.
    repeat (apply orb_true_iff in Hcond as [Hcond|Hcond]); try by auto.
    + apply String.eqb_eq in Hcond. rewrite Hcond. clear Hcond.
      unfold publicPaths in Hp. cbn in Hp.
      destruct Hp as [<-|[<-|[<-|[<-|[]]]]]; auto.
    + unfold publicPaths in Hp. cbn in Hp.
      destruct Hp as [<-|[<-|[<-|[<-|[]]]]];
        [right; left|left|right; left|left];
        apply (includes_prefix rp _ _ Hcond); reflexivity.
    + right. right. apply existsb_exists. exists p. split; [done|].
      by rewrite Hcond.
    + right. right. apply existsb_exists. exists p. split; [done|].
      rewrite Hcond. apply orb_true_r.
  - intros [Hin|[Hup|Hrel]].
    + cbn. rewrite Hin. by rewrite !orb_true_r.
    + cbn. rewrite Hup. by rewrite !orb_true_r.
    + apply existsb_exists in Hrel as (p & Hp & Hcond).
      apply existsb_exists. exists p. split; [done|].
      apply orb_true_iff in Hcond as [-> | ->]; by rewrite !orb_true_r.
Qed.

(** X11. Any request under /user whose path contains "signin" or "signup"
    anywhere is handed to the user service, with or without a token and
    whether or not the token validates: it is never answered 401. *)
Theorem substring_makes_user_path_public req rng :
  startsWith (original_or_url req) "/user" = true →
  (includes (split_query_head (original_or_url req)) "signin" = true
   ∨ includes (split_query_head (original_or_url req)) "signup" = true) →
  ∃ hdrs,
    middleware E (userRoute E) req rng =
    (((authenticate E req).1
      ++ [Proxy (userServiceUrl E) (original_or_url req) hdrs])%list, rng).
Proof.
  intros Hpre Hsub.
  assert (isPublic req = true) as Hpub
    by (apply isPublic_public_paths; tauto).
  rewrite middleware_unfold.
  change (requireAuth (userRoute E) req) with (negb (isPublic req)).
  rewrite Hpub. unfold proxy. cbn. rewrite Hpre. cbn.
  unfold proxyReqOptDecorator, run_extra. cbn. by eexists.
Qed.

Lemma set_extra_is_Some extra (h : gmap string string) k :
  is_Some (h !! k) → is_Some (set_extra extra h !! k).
Proof.
  intros Hk. destruct extra as [x|]; [|done]. unfold set_extra.
  apply lookup_union_is_Some. by right.
Qed.

Lemma set_extra_other extra (h : gmap string string) k :
  (∀ x v, extra = Some x → x !! k = Some v → non_blank v = false) →
  set_extra extra h !! k = h !! k.
Proof.
  intros Hno. destruct extra as [x|]; [|done]. unfold set_extra.
  apply lookup_union_r. apply map_lookup_filter_None.
  destruct (x !! k) as [v|] eqn:Hx; [right|by left].
  intros v' [= <-]. cbn. by rewrite (Hno x v eq_refl Hx).
Qed.

Lemma add_user_id_other a u (h : gmap string string) k :
  k ≠ "x-user-id" → add_user_id a u h !! k = h !! k.
Proof.
  intros Hk. unfold add_user_id. destruct u; [|done].
  destruct a; [|done]. by rewrite lookup_insert_ne.
Qed.

Lemma keep_authorization_other req (h : gmap string string) k :
  k ≠ "Authorization" → keep_authorization req h !! k = h !! k.
Proof.
  intros Hk. unfold keep_authorization. destruct (authHeaderValue req); [|done].
  destruct (truthy_str _); [|done]. by rewrite lookup_insert_ne.
Qed.

Lemma add_user_id_is_Some a u (h : gmap string string) k :
  is_Some (h !! k) → is_Some (add_user_id a u h !! k).
Proof.
  intros Hk. unfold add_user_id. destruct u; [|done]. destruct a; [|done].
  rewrite lookup_insert. by case_decide.
Qed.

Lemma keep_authorization_is_Some req (h : gmap string string) k :
  is_Some (h !! k) → is_Some (keep_authorization req h !! k).
Proof.
  intros Hk. unfold keep_authorization. destruct (authHeaderValue req); [|done].
  destruct (truthy_str _); [|done]. rewrite lookup_insert. by case_decide.
Qed.

Lemma decorator_unfold a options prepared srcReq rng :
  (proxyReqOptDecorator a options prepared srcReq rng).1 =
  set_extra (run_extra options srcReq rng).1
    (add_user_id a (user srcReq)
       (keep_authorization (inbound srcReq)
          (preserve_all (default_content_type prepared)
             (headers (inbound srcReq))))).
Proof.
  unfold proxyReqOptDecorator. by destruct (run_extra options srcReq rng).
Qed.

Lemma preserve_all_lookup (h : gmap string string) src k :
  preserve_all h src !! k = preserve k (h !! k) (src !! k).
Proof.
  unfold preserve_all. rewrite map_lookup_imap, lookup_merge.
  destruct (h !! k), (src !! k); cbn; try done.
  unfold preserve. by destruct (unset k None).
Qed.

(** X12. The decorator loses an inbound header only to the prototype of
    the headers object. Every header the request carries as a string under
    a name that [Object.prototype] does not define is present in the
    outbound headers under the same name; it carries the inbound value
    whenever the proxy library prepared nothing under that name, the name
    is not one the decorator writes itself (Content-Type, Authorization,
    x-user-id) and the route's extra headers hold no non-blank value for
    it. A header named like a property of [Object.prototype] (constructor,
    toString, ...) is dropped under the same conditions, because reading
    that name from the prepared headers finds the inherited property. *)
Theorem inbound_headers_are_kept a options prepared srcReq rng k s :
  headers (inbound srcReq) !! k = Some (HStr s) →
  (inherited k = false →
   is_Some ((proxyReqOptDecorator a options prepared srcReq rng).1 !! k))
  ∧ (prepared !! k = None →
     k ≠ "Content-Type" → k ≠ "Authorization" → k ≠ "x-user-id" →
     (∀ x v, (run_extra options srcReq rng).1 = Some x →
             x !! k = Some v → non_blank v = false) →
     (proxyReqOptDecorator a options prepared srcReq rng).1 !! k
     = if inherited k then None else Some s).
Proof.
  intros Hk. rewrite decorator_unfold. split.
  - intros Hown.
    apply set_extra_is_Some, add_user_id_is_Some, keep_authorization_is_Some.
    rewrite preserve_all_lookup, Hk. unfold preserve, unset.
    destruct (default_content_type prepared !! k) as [m|].
    + by destruct (negb (truthy_str m)).
    + by rewrite Hown.
  - intros Hprep Hct Hauth Hid Hextra.
    rewrite set_extra_other by done.
    rewrite add_user_id_other, keep_authorization_other by done.
    rewrite preserve_all_lookup, Hk.
    assert (default_content_type prepared !! k = None) as ->.
    { unfold default_content_type.
      destruct (falsy_header _); [rewrite lookup_insert_ne by done|]; done. }
    unfold preserve, unset. by destruct (inherited k).
Qed.

(** X13. The outbound request always has a non-empty Content-Type. Unless
    the proxy library prepared one under that name or the extra headers
    set one, it is application/json, whatever Content-Type the inbound
    request carries under that name. *)
Theorem content_type_is_always_set a options prepared srcReq rng :
  (∃ v, (proxyReqOptDecorator a options prepared srcReq rng).1
          !! "Content-Type" = Some v ∧ v ≠ "")
  ∧ (falsy_header (prepared !! "Content-Type") = true →
     (∀ x v, (run_extra options srcReq rng).1 = Some x →
             x !! "Content-Type" = Some v → non_blank v = false) →
     (proxyReqOptDecorator a options prepared srcReq rng).1
       !! "Content-Type" = Some "application/json").
Proof.
  rewrite decorator_unfold.
  assert (∃ v, default_content_type prepared !! "Content-Type" = Some v
               ∧ truthy_str v = true
               ∧ (falsy_header (prepared !! "Content-Type") = true →
                  v = "application/json")) as (v & Hv & Htr & Hjson).
  { unfold default_content_type.
    destruct (falsy_header (prepared !! "Content-Type")) eqn:Hf.
    - exists "application/json". by rewrite lookup_insert_eq.
    - unfold falsy_header in Hf.
      destruct (prepared !! "Content-Type") as [v|]; [|done].
      exists v. apply negb_false_iff in Hf. by repeat split. }
  assert (add_user_id a (user srcReq)
            (keep_authorization (inbound srcReq)
               (preserve_all (default_content_type prepared)
                  (headers (inbound srcReq)))) !! "Content-Type" = Some v)
    as Hbase.
  { rewrite add_user_id_other, keep_authorization_other by done.
    rewrite preserve_all_lookup, Hv. unfold preserve, unset.
    by rewrite Htr. }
  split.
  - destruct (run_extra options srcReq rng).1 as [x|] eqn:Hx; cbn.
    + destruct (x !! "Content-Type") as [w|] eqn:Hw.
      * destruct (non_blank w) eqn:Hnb.
        -- exists w. split; [|by destruct w].
           apply lookup_union_Some_l. by apply map_lookup_filter_Some.
        -- exists v. split; [|by destruct v].
           rewrite <- Hbase. apply lookup_union_r.
           apply map_lookup_filter_None. right. intros w' Hw'.
           rewrite Hw in Hw'. injection Hw' as <-. cbn. by rewrite Hnb.
      * exists v. split; [|by destruct v].
        rewrite <- Hbase. apply lookup_union_r.
        apply map_lookup_filter_None. by left.
    + exists v. split; [exact Hbase|by destruct v].
  - intros Hf Hextra. rewrite set_extra_other by done.
    rewrite Hbase. by rewrite (Hjson Hf).
Qed.

(** X14. The Authorization header goes upstream as it came: when the
    inbound request carries a non-empty string under "authorization" and
    the extra headers hold no non-blank Authorization, the outbound
    Authorization is that very string. *)
Theorem authorization_is_forwarded_verbatim a options prepared srcReq rng s :
  headers (inbound srcReq) !! "authorization" = Some (HStr s) →
  s ≠ "" →
  (∀ x v, (run_extra options srcReq rng).1 = Some x →
          x !! "Authorization" = Some v → non_blank v = false) →
  (proxyReqOptDecorator a options prepared srcReq rng).1 !! "Authorization"
    = Some s.
Proof.
  intros Hs Hne Hextra. rewrite decorator_unfold.
  rewrite set_extra_other by done. rewrite add_user_id_other by done.
  unfold keep_authorization, authHeaderValue. rewrite Hs.
  destruct s; [done|]. cbn. by rewrite lookup_insert_eq.
Qed.

Lemma forwarded_after_validation (evs : list event) ev :
  Forall (λ e, is_validate e = true) evs →
  forwarded (evs ++ [ev]) = forwarded [ev].
Proof.
  induction 1 as [|e evs He _ IH]; [done|]. cbn. by destruct e.
Qed.

(** X15. The notifications route never attaches the caller's identity,
    even if the request carries a token that validates: the x-user-id the
    orchestrator gets is the non-empty one the proxy library prepared if
    there is one; failing any prepared value it is the one the client
    sent, and there is none when the client sent none. *)
Theorem notifications_identity_is_the_clients req rng :
  startsWith (original_or_url req) "/notifications" = true →
  ∃ hdrs,
    forwarded (middleware E (notificationsRoute E) req rng).1 = Some hdrs
    ∧ (∀ v, proxyReqOpts E req !! "x-user-id" = Some v → v ≠ "" →
            hdrs !! "x-user-id" = Some v)
    ∧ (proxyReqOpts E req !! "x-user-id" = None →
       (∀ s, headers req !! "x-user-id" = Some (HStr s) →
             hdrs !! "x-user-id" = Some s)
       ∧ (headers req !! "x-user-id" = None → hdrs !! "x-user-id" = None)).
Proof.
  intros Hpre. rewrite middleware_unfold. unfold proxy. cbn.
  rewrite Hpre. cbn.
  pose proof (decorator_unfold false
    {| extraHeaders := Some (Dynamic (notificationHeaders E)) |}
    (proxyReqOpts E req)
    {| inbound := req; user := (authenticate E req).2 |} rng) as Hdec.
  destruct (proxyReqOptDecorator _ _ _ _ _) as [hdrs rng'] eqn:Hd.
  cbn in Hdec. exists hdrs. cbn.
  rewrite forwarded_after_validation by apply authenticate_only_validates.
  split; [done|].
  assert (hdrs !! "x-user-id"
          = preserve_all (default_content_type (proxyReqOpts E req))
              (headers req) !! "x-user-id") as Hlook.
  { rewrite Hdec. rewrite set_extra_other.
    - unfold add_user_id. destruct ((authenticate E req).2); cbn;
        by rewrite keep_authorization_other.
    - intros x v. unfold run_extra, notificationHeaders. cbn.
      destruct (existing_or_uuid _ _ _) as [i r1].
      destruct (existing_or_uuid _ _ _) as [c r2]. cbn.
      intros [= <-]. by rewrite !lookup_insert_ne. }
  assert (default_content_type (proxyReqOpts E req) !! "x-user-id"
          = proxyReqOpts E req !! "x-user-id") as Hsame.
  { unfold default_content_type.
    destruct (falsy_header _); [by rewrite lookup_insert_ne|done]. }
  rewrite Hlook, preserve_all_lookup, Hsame. split.
  - intros v -> Hv. unfold preserve, unset. by destruct v.
  - intros ->. split.
    + by intros s' ->.
    + by intros ->.
Qed.

(** X16. Every request gets exactly one action from the middleware of a
    route, after at most one token validation: it is passed on when its
    URL is not under the route's prefix, and otherwise either answered 401
    or forwarded to the route's target under its original URL. *)
Theorem one_action_per_request rt req rng :
  ∃ seen last,
    (middleware E rt req rng).1 = (seen ++ [last])%list
    ∧ (seen = [] ∨ ∃ token, seen = [Validate token])
    ∧ (startsWith (original_or_url req) (path rt) = false → last = Next)
    ∧ (startsWith (original_or_url req) (path rt) = true →
       last = Reply 401 unauthorized
       ∨ ∃ hdrs, last = Proxy (target rt) (original_or_url req) hdrs).
Proof.
  rewrite middleware_unfold. unfold proxy. cbn.
  assert ((authenticate E req).1 = []
          ∨ ∃ token, (authenticate E req).1 = [Validate token]) as Hseen.
  { unfold authenticate. destruct (extractTokenFromRequest req) as [t|]; [|by left].
    destruct (truthy_str t); [right; by exists t|by left]. }
  destruct (startsWith (original_or_url req) (path rt)) eqn:Hpre; cbn.
  - destruct (requireAuth rt req && _); cbn.
    + eexists _, _. split; [reflexivity|]. split; [done|]. split; [done|].
      intros _. by left.
    + destruct (proxyReqOptDecorator _ _ _ _ _) as [hdrs rng']. cbn.
      eexists _, _. split; [reflexivity|]. split; [done|]. split; [done|].
      intros _. right. by exists hdrs.
  - eexists _, _. split; [reflexivity|]. split; [done|]. split; done.
Qed.

Lemma startsWith_two u a b p :
  startsWith u (String a (String b p)) = true →
  ∃ rest, u = String a (String b rest).
Proof.
  unfold startsWith. destruct u as [|c0 [|c1 u]]; simpl; [done| |].
  - by destruct (ascii_dec a c0).
  - destruct (ascii_dec a c0) as [<-|]; [|done].
    destruct (ascii_dec b c1) as [<-|]; [|done]. by exists u.
Qed.

Lemma prefixes_do_not_overlap u p q a b :
  a ≠ b →
  startsWith u (String "/" (String a p)) = true →
  startsWith u (String "/" (String b q)) = false.
Proof.
  intros Hab [rest ->]%startsWith_two.
  destruct (startsWith _ _) eqn:Hq; [|done].
  apply startsWith_two in Hq as [rest' [= Heq _]]. by destruct Hab.
Qed.

(** X17. The three prefixes of the route table exclude one another: a
    request whose URL is under the prefix of one route is passed on by the
    middleware of every other route, which neither answers nor forwards
    it. *)
Theorem routes_do_not_overlap req rt1 rt2 rng :
  rt1 ∈ proxyRoutes E → rt2 ∈ proxyRoutes E →
  path rt1 ≠ path rt2 →
  startsWith (original_or_url req) (path rt1) = true →
  middleware E rt2 req rng = (((authenticate E req).1 ++ [Next])%list, rng).
Proof.
  intros H1 H2 Hne Hpre.
  assert (startsWith (original_or_url req) (path rt2) = false) as Hno.
  { unfold proxyRoutes in H1, H2.
    repeat (apply elem_of_cons in H1 as [->|H1]);
      repeat (apply elem_of_cons in H2 as [->|H2]);
      try (by apply elem_of_nil in H1); try (by apply elem_of_nil in H2);
      try done;
      revert Hpre; apply prefixes_do_not_overlap; discriminate. }
  rewrite middleware_unfold. unfold proxy. cbn. by rewrite Hno.
Qed.

End GatewayMore.

Lemma missing_authorization_is_rejected_witness :
  Gateway.extractTokenFromRequest
    (Scenario.request "GET" "/user/42" "/42" []) = None
  ∧ Gateway.middleware Scenario.demo (Gateway.userRoute Scenario.demo)
      (Scenario.request "GET" "/user/42" "/42" []) 0%nat
    = ([Gateway.Reply 401 Gateway.unauthorized], 0%nat).
Proof.
  apply (missing_authorization_is_rejected Scenario.demo
           (Gateway.userRoute Scenario.demo)
           (Scenario.request "GET" "/user/42" "/42" []) 0%nat);
    vm_compute; reflexivity.
Defined.

Lemma no_secret_no_entry_witness :
  Gateway.middleware Scenario.no_secret (Gateway.userRoute Scenario.no_secret)
    Scenario.spoofing 0%nat =
    (((Gateway.authenticate Scenario.no_secret Scenario.spoofing).1
      ++ [Gateway.Reply 401 Gateway.unauthorized])%list, 0%nat)
  ∧ Scenario.forwarded
      (Gateway.middleware Scenario.no_secret
         (Gateway.userRoute Scenario.no_secret) Scenario.spoofing 0%nat).1
    = None.
Proof.
  apply (no_secret_no_entry Scenario.no_secret
           (Gateway.userRoute Scenario.no_secret) Scenario.spoofing 0%nat).
  - left. reflexivity.
  - vm_compute. reflexivity.
  - vm_compute. reflexivity.
Defined.

Lemma valid_token_is_forwarded_with_identity_witness :
  ∃ hdrs,
    Gateway.middleware Scenario.demo (Gateway.userRoute Scenario.demo)
      Scenario.spoofing 0%nat =
      ([Gateway.Validate "good";
        Gateway.Proxy (Gateway.target (Gateway.userRoute Scenario.demo))
          (Gateway.original_or_url Scenario.spoofing) hdrs], 0%nat)
    ∧ (Gateway.requireAuth (Gateway.userRoute Scenario.demo) Scenario.spoofing
         = true →
       hdrs !! "x-user-id" = Some (Gateway.user_id Scenario.good_payload)).
Proof.
  apply (valid_token_is_forwarded_with_identity Scenario.demo
           (Gateway.userRoute Scenario.demo) Scenario.spoofing 0%nat
           "good" Scenario.good_payload);
    vm_compute; reflexivity.
Defined.

Lemma substring_makes_user_path_public_witness :
  ∃ hdrs,
    Gateway.middleware Scenario.demo (Gateway.userRoute Scenario.demo)
      (Scenario.request "DELETE" "/user/42/signin-history" "/42/signin-history" [])
      0%nat =
    (((Gateway.authenticate Scenario.demo
         (Scenario.request "DELETE" "/user/42/signin-history"
            "/42/signin-history" [])).1
      ++ [Gateway.Proxy (Gateway.userServiceUrl Scenario.demo)
            (Gateway.original_or_url
               (Scenario.request "DELETE" "/user/42/signin-history"
                  "/42/signin-history" [])) hdrs])%list, 0%nat).
Proof.
  apply (substring_makes_user_path_public Scenario.demo
           (Scenario.request "DELETE" "/user/42/signin-history"
              "/42/signin-history" []) 0%nat).
  - vm_compute. reflexivity.
  - left. vm_compute. reflexivity.
Defined.

Lemma inbound_headers_are_kept_witness :
  (Gateway.inherited "accept" = false →
   is_Some ((Gateway.proxyReqOptDecorator true Scenario.no_options ∅
               Scenario.spoofing_user 0%nat).1 !! "accept"))
  ∧ ((∅ : gmap string string) !! "accept" = None →
     "accept" ≠ "Content-Type" → "accept" ≠ "Authorization" →
     "accept" ≠ "x-user-id" →
     (∀ x v, (Gateway.run_extra Scenario.no_options Scenario.spoofing_user
                0%nat).1 = Some x →
             x !! "accept" = Some v → Js.non_blank v = false) →
     (Gateway.proxyReqOptDecorator true Scenario.no_options ∅
        Scenario.spoofing_user 0%nat).1 !! "accept"
     = if Gateway.inherited "accept" then None else Some "text/html").
Proof.
  apply (inbound_headers_are_kept true Scenario.no_options ∅
           Scenario.spoofing_user 0%nat "accept" "text/html").
  vm_compute. reflexivity.
Defined.

(** A header named constructor does not reach the upstream. *)
Example constructor_header_is_dropped :
  (Gateway.proxyReqOptDecorator false Scenario.no_options ∅
     {| Gateway.inbound :=
          Scenario.request "GET" "/user/42" "/42"
            [("constructor", Gateway.HStr "x"); ("accept", Gateway.HStr "y")];
        Gateway.user := None |} 0%nat).1
  = {[ "Content-Type" := "application/json"; "accept" := "y" ]}.
Proof. vm_compute. reflexivity. Qed.

Lemma authorization_is_forwarded_verbatim_witness :
  (Gateway.proxyReqOptDecorator true Scenario.no_options ∅
     Scenario.spoofing_user 0%nat).1 !! "Authorization" = Some "Bearer good".
Proof.
  apply (authorization_is_forwarded_verbatim true Scenario.no_options ∅
           Scenario.spoofing_user 0%nat "Bearer good").
  - vm_compute. reflexivity.
  - discriminate.
  - intros x v Hx. vm_compute in Hx. discriminate.
Defined.

Lemma notifications_identity_is_the_clients_witness :
  ∃ hdrs,
    Scenario.forwarded
      (Gateway.middleware Scenario.demo
         (Gateway.notificationsRoute Scenario.demo)
         Scenario.identity_claim 0%nat).1 = Some hdrs
    ∧ hdrs !! "x-user-id" = Some "u-999".
Proof.
  destruct (notifications_identity_is_the_clients Scenario.demo
              Scenario.identity_claim 0%nat)
    as (hdrs & Hfwd & _ & Hclient).
  - vm_compute. reflexivity.
  - exists hdrs. split; [exact Hfwd|].
    destruct Hclient as [Hsent _]; [vm_compute; reflexivity|].
    apply Hsent. vm_compute. reflexivity.
Defined.

Lemma routes_do_not_overlap_witness :
  Gateway.middleware Scenario.demo (Gateway.templateRoute Scenario.demo)
    Scenario.spoofing 0%nat =
  (((Gateway.authenticate Scenario.demo Scenario.spoofing).1
    ++ [Gateway.Next])%list, 0%nat).
Proof.
  apply (routes_do_not_overlap Scenario.demo Scenario.spoofing
           (Gateway.userRoute Scenario.demo)
           (Gateway.templateRoute Scenario.demo) 0%nat).
  - apply elem_of_cons. by left.
  - apply elem_of_cons. right. apply elem_of_cons. by left.
  - discriminate.
  - vm_compute. reflexivity.
Defined.

(** ** The failure paths *)

Section FailurePaths.
Import Js Envelope ProxyErrors.
Variable JSON_stringify : value → value.

Lemma surface_cases f res :
  surface JSON_stringify f res = res
  ∨ (headersSent res = false
     ∧ ∃ code body, surface JSON_stringify f res = status_json code body res).
Proof.
  destruct f as [err|err|err|err|e]; cbn;
    unfold proxyErrorHandler, proxy_callback, setup_failed, execution_failed,
      catch.
  - destruct (headersSent res) eqn:Hs; [by left|right]. eauto.
  - destruct (truthy_error err); cbn; [|by left].
    destruct (headersSent res) eqn:Hs; cbn; [by left|right]. eauto.
  - destruct (headersSent res) eqn:Hs; cbn; [by left|right]. eauto.
  - destruct (headersSent res) eqn:Hs; cbn; [by left|right]. eauto.
  - destruct (headersSent res) eqn:Hs; [by left|right]. eauto.
Qed.

(** X18. However many failure paths fire for one request, and in whatever
    order (the proxy's error handler, its callback, the two catch blocks
    around the proxy, the exception filter), the client gets at most one
    body: the first path that finds the headers unsent writes it, and every
    later one leaves the response alone. A response whose headers are
    already sent is not touched at all. *)
Theorem failures_write_at_most_once (fs : list failure) (res : Response) :
  let res' := foldl (λ r f, surface JSON_stringify f r) res fs in
  (res' = res
   ∨ (headersSent res = false ∧ headersSent res' = true
      ∧ ∃ body, written res' = body :: written res))
  ∧ (headersSent res = true → res' = res).
Proof.
  cbn. revert res. induction fs as [|f fs IH]; intros res; cbn.
  - split; [by left|done].
  - destruct (surface_cases f res) as [->|(Hs & code & body & ->)].
    + apply IH.
    + destruct (IH (status_json code body res)) as [_ Hsent].
      rewrite (Hsent eq_refl). split.
      * right. split; [done|]. split; [done|]. by exists body.
      * intros Htrue. by rewrite Htrue in Hs.
Qed.

End FailurePaths.

(** ** The guard of the gateway's own routes *)

Section GuardProperties.
Import Js Guard.

Lemma lower1_idempotent c : lower1 (lower1 c) = lower1 c.
Proof. destruct c as [[] [] [] [] [] [] [] []]; reflexivity. Qed.

Lemma toLowerCase1_idempotent s : toLowerCase1 (toLowerCase1 s) = toLowerCase1 s.
Proof.
  induction s as [|c s IH]; [done|]. cbn. by rewrite lower1_idempotent, IH.
Qed.

Lemma endsWith_includes s t u :
  endsWith s t = true → includes t u = true → includes s u = true.
Proof.
  intros Hs Hu. induction s as [|c s IH].
  - change (String.eqb EmptyString t || false = true) in Hs.
    apply orb_true_iff in Hs as [Hs|Hs]; [|done].
    apply String.eqb_eq in Hs. by subst.
  - change (String.eqb (String c s) t || endsWith s t = true) in Hs.
    apply orb_true_iff in Hs as [Hs|Hs].
    + apply String.eqb_eq in Hs. by subst.
    + change (String.prefix u (String c s) || includes s u = true).
      apply orb_true_iff. right. by apply IH.
Qed.

(** X19. The guard's allow-list is a substring test on the lower-cased path:
    a request whose path (before any question mark, in any letter case)
    contains "signin" or "signup" is let in without the passport strategy
    being asked; and for a handler mounted at the root (empty base URL)
    those are the only requests let in that way. *)
Theorem guard_allows_by_substring req :
  (includes (requestPath req) "signin" = true
   ∨ includes (requestPath req) "signup" = true →
   canActivate req = Allow)
  ∧ (baseUrl req = "" → canActivate req = Allow →
     includes (requestPath req) "signin" = true
     ∨ includes (requestPath req) "signup" = true).
Proof.
  unfold canActivate. split.
  - intros Hsub. assert (isPublicRoute req = true) as ->; [|done].
    unfold isPublicRoute. cbn.
    destruct Hsub as [-> | ->]; by rewrite !orb_true_r.
  - intros Hbase. destruct (isPublicRoute req) eqn:Hpub; [intros _|done].
    unfold isPublicRoute in Hpub.
    assert (fullPath req = requestPath req) as Hfull.
    { unfold fullPath. rewrite Hbase. unfold requestPath.
      apply toLowerCase1_idempotent. }
    rewrite Hfull in Hpub.
    apply existsb_exists in Hpub as (route & Hroute & Hcond).
    unfold publicRoutes in Hroute. cbn in Hroute.
    destruct Hroute as [<-|[<-|[<-|[<-|[]]]]];
      repeat (apply orb_true_iff in Hcond as [Hcond|Hcond]);
      first
        [ by left
        | by right
        | apply String.eqb_eq in Hcond; rewrite Hcond;
          first [left; reflexivity | right; reflexivity]
        | first [ left; apply (endsWith_includes _ _ _ Hcond); reflexivity
                | right; apply (endsWith_includes _ _ _ Hcond); reflexivity ] ].
Qed.

End GuardProperties.

(** ** Pagination *)

Section PaginationProperties.
Import Pagination.
Context {A : Type}.

Lemma ceil_div_bounds a b :
  0 < b → a ≤ ceil_div a b * b ∧ ceil_div a b * b < a + b.
Proof.
  intros Hb. unfold ceil_div.
  pose proof (Z.div_mod (- a) b) as Hdm.
  pose proof (Z.mod_pos_bound (- a) b Hb) as Hmod.
  specialize (Hdm ltac:(lia)). nia.
Qed.

Lemma page_data_is_the_slice (rows : list A) page limit :
  match getPaginated {| dto_page := Some page; dto_limit := Some limit |} rows with
  | Page data _ => data
  | NotFound _ => []
  end = findMany ((page - 1) * limit) limit rows.
Proof.
  unfold getPaginated. cbn.
  destruct (findMany _ _ _) as [|x data] eqn:Hd; cbn; [|done].
  by destruct (1 <? page).
Qed.

Lemma chunks_tile (rows : list A) (n k : nat) :
  concat (map (λ i, firstn n (skipn (i * n) rows)) (seq 0 k))
  = firstn (k * n) rows.
Proof.
  induction k as [|k IH]; [done|].
  rewrite seq_S, map_app, concat_app, IH. cbn. rewrite app_nil_r.
  rewrite take_take_drop. f_equal. lia.
Qed.

(** X20. The pages tile the table: for a limit of at least 1, the data of
    pages 1, 2, ... up to the reported number of pages, one after the
    other, are exactly the rows of the query, in order, each once. *)
Theorem pages_tile_the_rows (rows : list A) (limit : Z) :
  1 ≤ limit →
  concat
    (map (λ p : nat,
            match getPaginated
                    {| dto_page := Some (Z.of_nat p); dto_limit := Some limit |}
                    rows with
            | Page data _ => data
            | NotFound _ => []
            end)
       (seq 1 (Z.to_nat (ceil_div (Z.of_nat (length rows)) limit))))
  = rows.
Proof.
  intros Hlimit.
  pose proof (ceil_div_bounds (Z.of_nat (length rows)) limit ltac:(lia))
    as [Hlo Hhi].
  set (k := Z.to_nat (ceil_div (Z.of_nat (length rows)) limit)).
  rewrite <- seq_shift, map_map.
  erewrite map_ext; [|intros p; apply page_data_is_the_slice].
  erewrite map_ext.
  - rewrite (chunks_tile rows (Z.to_nat limit) k).
    apply firstn_all2. unfold k. nia.
  - intros p. cbn beta. unfold findMany. f_equal. f_equal. lia.
Qed.

(** X21. For a page and a limit of at least 1: the answer is "not found"
    exactly when the page is not the first and starts at or after the end
    of the rows (so the first page of an empty table is an empty page, not
    an error); otherwise the page holds at most [limit] rows, and its meta
    reports the row count, a number of pages that just covers it, a next
    page exactly when rows remain after this one, and a previous page
    exactly when the page is not the first. *)
Theorem pagination_meta_is_consistent (rows : list A) (page limit : Z) :
  1 ≤ page → 1 ≤ limit →
  let total := Z.of_nat (length rows) in
  match getPaginated {| dto_page := Some page; dto_limit := Some limit |} rows with
  | NotFound p => p = page ∧ 1 < page ∧ total ≤ (page - 1) * limit
  | Page data meta =>
      (page = 1 ∨ (page - 1) * limit < total)
      ∧ Z.of_nat (length data) ≤ limit
      ∧ Z.of_nat (length data) = Z.min limit (Z.max 0 (total - (page - 1) * limit))
      ∧ Pagination.total meta = total
      ∧ total ≤ total_pages meta * limit < total + limit
      ∧ (has_next meta = true ↔ page * limit < total)
      ∧ (has_previous meta = true ↔ 1 < page)
  end.
Proof.
  intros Hpage Hlimit total. unfold getPaginated. cbn.
  pose proof (ceil_div_bounds total limit ltac:(lia)) as [Hlo Hhi].
  fold total.
  assert (Z.of_nat (length (findMany ((page - 1) * limit) limit rows))
          = Z.min limit (Z.max 0 (total - (page - 1) * limit))) as Hlen.
  { unfold findMany. rewrite length_take, length_drop. unfold total. nia. }
  destruct (Nat.eqb _ 0) eqn:Hzero; cbn.
  - apply Nat.eqb_eq in Hzero. rewrite Hzero in Hlen.
    destruct (1 <? page) eqn:Hp.
    + apply Z.ltb_lt in Hp. split; [done|]. split; [done|]. lia.
    + apply Z.ltb_ge in Hp. split; [left; lia|]. rewrite Hzero. cbn.
      split; [lia|]. split; [lia|]. split; [done|]. split; [lia|].
      rewrite Z.ltb_lt. split; [split; nia|]. split; [done|lia].
  - apply Nat.eqb_neq in Hzero.
    split; [right; lia|]. split; [lia|]. split; [exact Hlen|].
    split; [done|]. split; [lia|].
    rewrite Z.ltb_lt, Z.ltb_lt. split; [|lia]. split; nia.
Qed.

End PaginationProperties.

Lemma pages_tile_the_rows_witness :
  concat
    (map (λ p : nat,
            match Pagination.getPaginated
                    {| Pagination.dto_page := Some (Z.of_nat p);
                       Pagination.dto_limit := Some 2 |}
                    ["a"; "b"; "c"; "d"; "e"] with
            | Pagination.Page data _ => data
            | Pagination.NotFound _ => []
            end)
       (seq 1 (Z.to_nat (Pagination.ceil_div
                           (Z.of_nat (length ["a"; "b"; "c"; "d"; "e"])) 2))))
  = ["a"; "b"; "c"; "d"; "e"].
Proof.
  apply (pages_tile_the_rows ["a"; "b"; "c"; "d"; "e"] 2). lia.
Defined.

Lemma pagination_meta_is_consistent_witness :
  let total := Z.of_nat (length ["a"; "b"; "c"; "d"; "e"]) in
  match Pagination.getPaginated
          {| Pagination.dto_page := Some 3; Pagination.dto_limit := Some 2 |}
          ["a"; "b"; "c"; "d"; "e"] with
  | Pagination.NotFound p => p = 3 ∧ 1 < 3 ∧ total ≤ (3 - 1) * 2
  | Pagination.Page data meta =>
      (3 = 1 ∨ (3 - 1) * 2 < total)
      ∧ Z.of_nat (length data) ≤ 2
      ∧ Z.of_nat (length data) = Z.min 2 (Z.max 0 (total - (3 - 1) * 2))
      ∧ Pagination.total meta = total
      ∧ total ≤ Pagination.total_pages meta * 2 < total + 2
      ∧ (Pagination.has_next meta = true ↔ 3 * 2 < total)
      ∧ (Pagination.has_previous meta = true ↔ 1 < 3)
  end.
Proof.
  apply (pagination_meta_is_consistent ["a"; "b"; "c"; "d"; "e"] 3 2); lia.
Defined.
